(** * The data-availability store of beacon-kit (da/store/store.go)

    A shallow embedding of the availability store: the presence check
    [IsDataAvailable], the two versions of [Persist] and of
    [GetBlobsFromStore] found in [da/store/store.go], and the inline
    slot-commitment codec.  The index database, the chain spec and the SSZ
    codec of sidecars are collaborators of the store; they are interfaces
    here, with small in-memory doubles used to run the store. *)

From Stdlib Require Import ZArith List Lia.
From Stdlib Require Import Strings.Byte Strings.String.
From stdpp Require Import base option list vector countable gmap.

Local Open Scope Z_scope.

(** ** Bytes and Go slices *)

Abbreviation bytes := (list byte).

#[global] Instance byte_eq_dec : EqDecision byte := Byte.byte_eq_dec.

#[global] Program Instance byte_countable : Countable byte :=
  inj_countable Byte.to_N Byte.of_N _.
Next Obligation. intros b. apply Byte.of_to_N. Qed.

(** [byte(n)] on an [int]: the low eight bits. *)
Definition byte_of_nat (n : nat) : byte :=
  match Byte.of_N (N.of_nat n mod 256) with
  | Some b => b
  | None => x00
  end.

(** [int(b)] on a byte. *)
Definition int_of_byte (b : byte) : nat := N.to_nat (Byte.to_N b).

(** A Go byte slice as a slicing expression sees it: [data] holds the
    [len(s)] elements, [beyond] the [cap(s) - len(s)] bytes of the backing
    array that lie past the length. *)
Record slice := mkSlice { data : bytes; beyond : bytes }.

Definition exact (bz : bytes) : slice := mkSlice bz [].

(** The outcome of running Go code that may panic at run time. *)
Inductive outcome (A : Type) : Type :=
| Return (a : A)
| Panic (msg : string).
Arguments Return {A} a.
Arguments Panic {A} msg.

(** [s[i]]: the index is checked against the length. *)
Definition index (s : slice) (i : nat) : outcome byte :=
  match data s !! i with
  | Some b => Return b
  | None => Panic "index out of range"
  end.

(** [s[lo:hi]]: the bounds are checked against the capacity. *)
Definition reslice (s : slice) (lo hi : nat) : outcome bytes :=
  if decide (lo ≤ hi ∧ hi ≤ length (data s) + length (beyond s))%nat
  then Return (take (hi - lo) (drop lo (data s ++ beyond s)))
  else Panic "slice bounds out of range".

(** ** Errors *)

Inductive error : Type :=
| ErrAttemptedToStoreNilSidecar
| ErrNotFound
| ErrIO (code : Z)
| ErrSSZ (code : Z).

#[global] Instance error_eq_dec : EqDecision error.
Proof. solve_decision. Defined.

(** A Go [(value, error)] pair. *)
Inductive result (A : Type) : Type :=
| Ok (a : A)
| Err (e : error).
Arguments Ok {A} a.
Arguments Err {A} e.

(** ** Collaborators *)

(** [IndexDB]: the database interface of the store, over a backend state
    [St].  Reads observe the state; a write returns the next state and the
    error it reports, if any. *)
Class IndexDB (St : Type) := {
  db_Has : St → Z → bytes → result bool;
  db_Get : St → Z → bytes → result slice;
  db_Set : St → Z → bytes → bytes → St * option error
}.

(** [chain.ChainSpec], as far as the store uses it. *)
Class ChainSpec := {
  WithinDAPeriod : Z → Z → bool
}.

(** ** Sidecars *)

(** COMMITMENT_SIZE is the length of a KZG commitment in bytes. *)
Definition COMMITMENT_SIZE : nat := 48.

Abbreviation KZGCommitment := (vec byte COMMITMENT_SIZE).

Record BeaconBlockHeader := { GetSlot : Z }.

(** A sidecar with its header in place; a sidecar whose header pointer is
    nil is not among these values. *)
Record BlobSidecar := {
  Index : Z;
  Blob : bytes;
  KzgCommitment : KZGCommitment;
  KzgProof : bytes;
  Header : BeaconBlockHeader;
  InclusionProof : list bytes
}.

(** The SSZ codec of sidecars. *)
Class SidecarSSZ := {
  MarshalSSZ : BlobSidecar → result bytes;
  UnmarshalSSZ : bytes → result BlobSidecar
}.

(** SlotCommitmentsKey is the key used to store the commitments for a slot
    in the DB. *)
Definition SlotCommitmentsKey : bytes := list_byte_of_string "slot_commitments".

(** ** The store and the writes it issues *)

(** One call of [IndexDB.Set]: slot, key, value. *)
Record write := mkWrite { w_slot : Z; w_key : bytes; w_value : bytes }.

(** The store holds the database; [issued] records, oldest first, the
    [Set] calls made on it. *)
Record Store (St : Type) := mkStore { db : St; issued : list write }.
Arguments mkStore {St} db issued.
Arguments db {St} s.
Arguments issued {St} s.

Section Availability.
Context {St : Type} `{!IndexDB St}.

Definition store_Set (s : Store St) (slot : Z) (key value : bytes)
  : Store St * option error :=
  let '(d, e) := db_Set (db s) slot key value in
  (mkStore d (issued s ++ [mkWrite slot key value]), e).

(** IsDataAvailable ensures that all blobs referenced in the block are
    stored before it returns without an error.  (The same loop in both
    versions of the file.) *)
Fixpoint IsDataAvailable (s : Store St) (slot : Z)
    (commitments : list KZGCommitment) : bool :=
  match commitments with
  | [] => true
  | commitment :: rest =>
      match db_Has (db s) slot (vec_to_list commitment) with
      | Ok true => IsDataAvailable s slot rest
      | Ok false | Err _ => false
      end
  end.
End Availability.

(** ** Goroutines

    Both versions fan work out to one goroutine per list entry and join on
    a wait group.  Every goroutine performs at most one database call, so a
    run of the fan-out is an order in which the goroutines take their turn
    at the database.  The order is the Go scheduler's choice: [sched] is its
    list of decisions, each one selecting among the goroutines still to
    run.  A scheduler that has run out of decisions runs the rest in launch
    order. *)

Fixpoint pick {A : Type} (k : nat) (ready : list A) {struct ready}
  : option (A * list A) :=
  match ready with
  | [] => None
  | t :: ready' =>
      match k with
      | O => Some (t, ready')
      | S k' =>
          match pick k' ready' with
          | Some (u, rest) => Some (u, t :: rest)
          | None => None
          end
      end
  end.

Fixpoint scheduled {A : Type} (sched : list nat) (ready : list A) : list A :=
  match sched with
  | [] => ready
  | k :: sched' =>
      match pick (k mod length ready) ready with
      | Some (t, rest) => t :: scheduled sched' rest
      | None => []
      end
  end.

(** [for i, x := range xs { go func(index, x) ... }] *)
Definition indexed {A : Type} (xs : list A) : list (nat * A) := imap pair xs.

(** ** Reading the sidecars of a commitment list

    The second half of [GetBlobsFromStore], the same in both versions. *)

Record fetching := mkFetching {
  f_errChan : list error;
  f_sidecars : list (option BlobSidecar)
}.

Section Fetch.
Context {St : Type} `{!IndexDB St} `{!SidecarSSZ}.

(** The body of one reader goroutine. *)
Definition fetch_one (s : Store St) (slot : Z) (f : fetching)
    (task : nat * bytes) : fetching :=
  let '(index, comm) := task in
  match db_Get (db s) slot comm with
  | Err e => mkFetching (f_errChan f ++ [e]) (f_sidecars f)
  | Ok bz =>
      match UnmarshalSSZ (data bz) with
      | Err e => mkFetching (f_errChan f ++ [e]) (f_sidecars f)
      | Ok sidecar =>
          mkFetching (f_errChan f) (<[index := Some sidecar]> (f_sidecars f))
      end
  end.

Definition fetch_all (sched : list nat) (s : Store St) (slot : Z)
    (commitments : list bytes) : result (list (option BlobSidecar)) :=
  let start := mkFetching [] (replicate (length commitments) None) in
  let f := foldl (fetch_one s slot) start
             (scheduled sched (indexed commitments)) in
  match f_errChan f with
  | err :: _ => Err err
  | [] => Ok (f_sidecars f)
  end.
End Fetch.

(** ** First version of the file (package paths without [mod/]) *)

(** [types.SlotCommitments.UnmarshalSSZ]: the decoder is the SSZ library's. *)
Class SlotCommitmentsSSZ := {
  SlotCommitments_UnmarshalSSZ : bytes → result (list bytes)
}.

Module V1.
Section V1.
Context {St : Type} `{!IndexDB St} `{!ChainSpec} `{!SidecarSSZ}
        `{!SlotCommitmentsSSZ}.

(** Store each sidecar sequentially. *)
Fixpoint store_each (slot : Z) (sidecars : list (option BlobSidecar))
    (s : Store St) : Store St * option error :=
  match sidecars with
  | [] => (s, None)
  | None :: _ => (s, Some ErrAttemptedToStoreNilSidecar)
  | Some sc :: rest =>
      match MarshalSSZ sc with
      | Err err => (s, Some err)
      | Ok bz =>
          match store_Set s slot (vec_to_list (KzgCommitment sc)) bz with
          | (s', Some err) => (s', Some err)
          | (s', None) => store_each slot rest s'
          end
      end
  end.

(** [sidecars] is [None] for a nil collection. *)
Definition Persist (s : Store St) (slot : Z)
    (sidecars : option (list (option BlobSidecar)))
  : outcome (Store St * option error) :=
  match sidecars with
  | None | Some [] => Return (s, None)
  | Some (None :: _) => Panic "nil pointer dereference"
  | Some ((Some first :: _) as all) =>
      if negb (WithinDAPeriod (GetSlot (Header first)) slot)
      then Return (s, None)
      else Return (store_each slot all s)
  end.

Definition GetBlobsFromStore (sched : list nat) (s : Store St) (slot : Z)
  : result (list (option BlobSidecar)) :=
  match db_Get (db s) slot SlotCommitmentsKey with
  | Err _ => Ok []
  | Ok serializedCommitments =>
      match SlotCommitments_UnmarshalSSZ (data serializedCommitments) with
      | Err err => Err err
      | Ok commitments => fetch_all sched s slot commitments
      end
  end.
End V1.
End V1.

(** ** Second version of the file (package paths under [mod/]) *)

(** Sequencing of code that may panic. *)
#[global] Instance outcome_bind : MBind outcome := λ A B k o,
  match o with
  | Return a => k a
  | Panic msg => Panic msg
  end.

(** Serialization: first byte is number of commitments, followed by
    concatenated commitments. *)
Definition serializeCommitments (commitments : list bytes) : bytes :=
  byte_of_nat (length commitments) :: concat commitments.

(** The decoding loop, from entry [i] on, with [remaining] entries to go. *)
Fixpoint sliceCommitments (serializedCommitments : slice)
    (i remaining : nat) : outcome (list bytes) :=
  match remaining with
  | O => Return []
  | S remaining' =>
      let start := (1 + i * COMMITMENT_SIZE)%nat in
      let end_ := (start + COMMITMENT_SIZE)%nat in
      commitment ← reslice serializedCommitments start end_;
      rest ← sliceCommitments serializedCommitments (S i) remaining';
      Return (commitment :: rest)
  end.

(** Deserialize: first byte is count, each commitment is fixed size. *)
Definition deserializeCommitments (serializedCommitments : slice)
  : outcome (list bytes) :=
  count ← index serializedCommitments 0;
  sliceCommitments serializedCommitments 0 (int_of_byte count).

Record persisting (St : Type) := mkPersisting {
  p_store : Store St;
  p_errChan : list error;
  p_commitments : list bytes
}.
Arguments mkPersisting {St} p_store p_errChan p_commitments.
Arguments p_store {St} p.
Arguments p_errChan {St} p.
Arguments p_commitments {St} p.

Module V2.
Section V2.
Context {St : Type} `{!IndexDB St} `{!ChainSpec} `{!SidecarSSZ}.

(** The launching loop: the goroutines started, and whether the loop
    ended on a nil entry. *)
Fixpoint launch (i : nat) (sidecars : list (option BlobSidecar))
  : list (nat * BlobSidecar) * bool :=
  match sidecars with
  | [] => ([], false)
  | None :: _ => ([], true)
  | Some sidecar :: rest =>
      let '(started, nil_seen) := launch (S i) rest in
      ((i, sidecar) :: started, nil_seen)
  end.

(** The body of one writer goroutine. *)
Definition persist_one (slot : Z) (p : persisting St)
    (task : nat * BlobSidecar) : persisting St :=
  let '(index, sc) := task in
  match MarshalSSZ sc with
  | Err err => mkPersisting (p_store p) (p_errChan p ++ [err]) (p_commitments p)
  | Ok bz =>
      match store_Set (p_store p) slot (vec_to_list (KzgCommitment sc)) bz with
      | (s', Some err) =>
          mkPersisting s' (p_errChan p ++ [err]) (p_commitments p)
      | (s', None) =>
          mkPersisting s' (p_errChan p)
            (<[index := vec_to_list (KzgCommitment sc)]> (p_commitments p))
      end
  end.

(** [sidecars] is [None] for a nil collection.  When the launching loop
    meets a nil entry, [Persist] returns without waiting for the
    goroutines already started; the store in the result is the one they
    leave behind. *)
Definition Persist (sched : list nat) (s : Store St) (slot : Z)
    (sidecars : option (list (option BlobSidecar)))
  : outcome (Store St * option error) :=
  match sidecars with
  | None | Some [] => Return (s, None)
  | Some (None :: _) => Panic "nil pointer dereference"
  | Some ((Some first :: _) as all) =>
      if negb (WithinDAPeriod (GetSlot (Header first)) slot)
      then Return (s, None)
      else
        let '(started, nil_seen) := launch 0 all in
        let start := mkPersisting s [] (replicate (length all) []) in
        let p := foldl (persist_one slot) start (scheduled sched started) in
        if nil_seen
        then Return (p_store p, Some ErrAttemptedToStoreNilSidecar)
        else
          match p_errChan p with
          | err :: _ => Return (p_store p, Some err)
          | [] =>
              Return (store_Set (p_store p) slot SlotCommitmentsKey
                        (serializeCommitments (p_commitments p)))
          end
  end.

Definition GetBlobsFromStore (sched : list nat) (s : Store St) (slot : Z)
  : outcome (result (list (option BlobSidecar))) :=
  match db_Get (db s) slot SlotCommitmentsKey with
  | Err _ => Return (Ok [])
  | Ok serializedCommitments =>
      commitments ← deserializeCommitments serializedCommitments;
      Return (fetch_all sched s slot commitments)
  end.
End V2.
End V2.

(** ** Doubles of the collaborators *)

(** Modelled from the spec: the index database itself is not part of the
    store.  This is the key-value store of section 6, partitioned by slot:
    [has] reports presence, [get] of a missing key is an error, [set] binds
    the key. *)
#[global] Instance MemDB : IndexDB (gmap (Z * bytes) bytes) := {
  db_Has m slot key := Ok (bool_decide (is_Some (m !! (slot, key))));
  db_Get m slot key :=
    match m !! (slot, key) with
    | Some value => Ok (exact value)
    | None => Err ErrNotFound
    end;
  db_Set m slot key value := (<[(slot, key) := value]> m, None)
}.

(** A database out of order: every call fails. *)
Definition FaultyDB : IndexDB unit := {|
  db_Has _ _ _ := Err (ErrIO 5);
  db_Get _ _ _ := Err (ErrIO 5);
  db_Set d _ _ _ := (d, Some (ErrIO 5))
|}.

(** A chain spec whose retention window is [window] slots. *)
Definition windowSpec (window : Z) : ChainSpec := {|
  WithinDAPeriod block current := current <=? block + window
|}.

(** The first [n] bytes of [l], padded with zeros. *)
Fixpoint take_vec (n : nat) (l : bytes) : vec byte n :=
  match n with
  | O => [#]
  | S n' => hd x00 l ::: take_vec n' (tl l)
  end.

(** A sidecar codec for running the store: commitment, then blob. *)
Definition plainSSZ : SidecarSSZ := {|
  MarshalSSZ sc := Ok (vec_to_list (KzgCommitment sc) ++ Blob sc);
  UnmarshalSSZ bz :=
    if decide (length bz < COMMITMENT_SIZE)%nat then Err (ErrSSZ 1)
    else Ok {| Index := 0; Blob := drop COMMITMENT_SIZE bz;
               KzgCommitment := take_vec COMMITMENT_SIZE bz;
               KzgProof := []; Header := {| GetSlot := 0 |};
               InclusionProof := [] |}
|}.

(** A decoder of [SlotCommitments] that accepts nothing. *)
Definition rejectingSSZ : SlotCommitmentsSSZ := {|
  SlotCommitments_UnmarshalSSZ _ := Err (ErrSSZ 2)
|}.

Definition emptyStore : Store (gmap (Z * bytes) bytes) := mkStore ∅ [].

Definition commitmentOf (b : byte) : KZGCommitment := vreplicate COMMITMENT_SIZE b.

Definition sidecarOf (b : byte) (blob : bytes) : BlobSidecar :=
  {| Index := 0; Blob := blob; KzgCommitment := commitmentOf b;
     KzgProof := []; Header := {| GetSlot := 0 |}; InclusionProof := [] |}.

(** ** Observations *)

(** The [Set] calls made between two states of the store. *)
Definition written_since {St : Type} (s s' : Store St) (new : list write)
  : Prop :=
  issued s' = issued s ++ new.

(** The write stores a record under a commitment. *)
Definition commitment_keyed (w : write) : Prop :=
  length (w_key w) = COMMITMENT_SIZE.

(** What a sidecar is compared by: its commitment and its payload. *)
Definition content (sc : BlobSidecar) : KZGCommitment * bytes :=
  (KzgCommitment sc, Blob sc).

(** The slice a goroutine fills: [g x] is written at index [i] by the
    goroutine of task [(i, x)]. *)
Definition fill {A B : Type} (g : A → B) (acc : list B) (task : nat * A)
  : list B :=
  <[task.1 := g task.2]> acc.

(** [sc.KzgCommitment[:]] *)
Abbreviation commitmentKey sc := (vec_to_list (KzgCommitment sc)).

(** The record [Persist] writes for a sidecar. *)
Definition record_of `{!SidecarSSZ} (slot : Z) (sc : BlobSidecar) : write :=
  mkWrite slot (commitmentKey sc)
    (match MarshalSSZ sc with Ok bz => bz | Err _ => [] end).

(** The effect of a write on the in-memory database. *)
Definition apply_write (m : gmap (Z * bytes) bytes) (w : write)
  : gmap (Z * bytes) bytes :=
  <[(w_slot w, w_key w) := w_value w]> m.

(** The sidecar a reader goroutine obtains for a commitment. *)
Definition fetched {St : Type} `{!IndexDB St} `{!SidecarSSZ}
    (s : Store St) (slot : Z) (comm : bytes) : option BlobSidecar :=
  match db_Get (db s) slot comm with
  | Ok bz =>
      match UnmarshalSSZ (data bz) with
      | Ok sidecar => Some sidecar
      | Err _ => None
      end
  | Err _ => None
  end.

(** Sample sidecars: [sidecarA] and [sidecarA'] share a commitment and
    differ in their payload. *)
Definition sidecarA : BlobSidecar := sidecarOf x01 [x0a].
Definition sidecarA' : BlobSidecar := sidecarOf x01 [x0c].
Definition sidecarB : BlobSidecar := sidecarOf x02 [x0b].

(** What a call returned, without the store. *)
Definition returned {St : Type} (o : outcome (Store St * option error))
  : outcome (option error) :=
  match o with
  | Return (_, err) => Return err
  | Panic msg => Panic msg
  end.

(** ** The node API backend (node-api/backend): [BlobSidecarsAtSlot] *)

Module beacontypes.
(** [BlobSidecarData], the entry of a response; the sample response of the
    handler is made of entries with the same fields. *)
Record BlobSidecarData := mkBlobSidecarData {
  Index : Z;
  Blob : string;
  KZGCommitment : string;
  KZGProof : string;
  KZGCommitmentInclusionProof : list string
}.
End beacontypes.

(** The text forms the response is made of: [MarshalText] of a blob, of a
    commitment and of a proof, and [String] of a root of the inclusion
    proof. *)
Class TextForms := {
  Blob_MarshalText : bytes → result string;
  KZGCommitment_MarshalText : KZGCommitment → result string;
  KZGProof_MarshalText : bytes → result string;
  Root_String : bytes → string
}.

Section Backend.
Context {St : Type} `{!IndexDB St} `{!SidecarSSZ} `{!TextForms}.

(** The body of the loop, for the sidecar at one index. *)
Definition sidecarData (blobSidecar : BlobSidecar)
  : result beacontypes.BlobSidecarData :=
  match Blob_MarshalText (Blob blobSidecar) with
  | Err err => Err err
  | Ok blobHex =>
      match KZGCommitment_MarshalText (KzgCommitment blobSidecar) with
      | Err err => Err err
      | Ok kzgCommitmentHex =>
          match KZGProof_MarshalText (KzgProof blobSidecar) with
          | Err err => Err err
          | Ok kzgProofHex =>
              Ok {| beacontypes.Index := Index blobSidecar;
                    beacontypes.Blob := blobHex;
                    beacontypes.KZGCommitment := kzgCommitmentHex;
                    beacontypes.KZGProof := kzgProofHex;
                    beacontypes.KZGCommitmentInclusionProof :=
                      Root_String <$> InclusionProof blobSidecar |}
          end
      end
  end.

(** The loop over the collection; a nil entry is dereferenced. *)
Fixpoint sidecarsData (blobSidecars : list (option BlobSidecar))
  : outcome (result (list beacontypes.BlobSidecarData)) :=
  match blobSidecars with
  | [] => Return (Ok [])
  | None :: _ => Panic "nil pointer dereference"
  | Some blobSidecar :: rest =>
      match sidecarData blobSidecar with
      | Err err => Return (Err err)
      | Ok entry =>
          response ← sidecarsData rest;
          Return (match response with
                  | Ok entries => Ok (entry :: entries)
                  | Err err => Err err
                  end)
      end
  end.

(** BlobSidecarsAtSlot returns the blob sidecars at the given slot. *)
Definition BlobSidecarsAtSlot (sched : list nat) (s : Store St) (slot : Z)
  : outcome (result (list beacontypes.BlobSidecarData)) :=
  blobSidecars ← V2.GetBlobsFromStore sched s slot;
  match blobSidecars with
  | Err err => Return (Err err)
  | Ok blobSidecars => sidecarsData blobSidecars
  end.
End Backend.

(** ** The handler of the blob sidecars route (node-api/handlers/beacon) *)

(** [strings.Repeat] *)
Fixpoint Repeat (s : string) (count : nat) : string :=
  match count with
  | O => EmptyString
  | S count' => String.append s (Repeat s count')
  end.

(** The handler, as far as this route uses it: its logger and its
    backend. *)
Record Handler (LoggerT BackendT : Type) := mkHandler {
  Logger : LoggerT;
  backend : BackendT
}.
Arguments mkHandler {LoggerT BackendT} Logger backend.
Arguments Logger {LoggerT BackendT} h.
Arguments backend {LoggerT BackendT} h.

Section Handler.
Context {ContextT Request LoggerT BackendT : Type}.
(** [utils.BindAndValidate(c, h.Logger())], the block id of a request and
    [utils.SlotFromBlockID(req.BlockID, h.backend)]. *)
Context (BindAndValidate : ContextT → LoggerT → result Request).
Context (BlockID : Request → string).
Context (SlotFromBlockID : string → BackendT → result Z).

Definition GetBlobSidecars (h : Handler LoggerT BackendT) (c : ContextT)
  : result (list beacontypes.BlobSidecarData) :=
  match BindAndValidate c (Logger h) with
  | Err err => Err err
  | Ok req =>
      match SlotFromBlockID (BlockID req) (backend h) with
      | Err err => Err err
      | Ok _ =>
          Ok [ {| beacontypes.Index := 0;
                  beacontypes.Blob := String.append "0x" (Repeat "00" 2);
                  beacontypes.KZGCommitment := String.append "0x" (Repeat "00" 2);
                  beacontypes.KZGProof := String.append "0x" (Repeat "00" 2);
                  beacontypes.KZGCommitmentInclusionProof :=
                    replicate 17 EmptyString |} ]
      end
  end.
End Handler.

(** ** Fork versions (beacon/core/signing) *)

(** [byte(v)] on an unsigned integer: the low eight bits. *)
Definition byte_of_Z (v : Z) : byte := byte_of_nat (Z.to_nat (v mod 256)).

(** [binary.LittleEndian.PutUint32(b, v)]; the result is [b] after the
    call. *)
Definition PutUint32 (b : bytes) (v : Z) : outcome bytes :=
  if decide (length b < 4)%nat then Panic "index out of range"
  else Return (<[3%nat := byte_of_Z (v ≫ 24)]>
                 (<[2%nat := byte_of_Z (v ≫ 16)]>
                    (<[1%nat := byte_of_Z (v ≫ 8)]>
                       (<[0%nat := byte_of_Z v]> b)))).

(** VersionFromUint returns a Version from a uint32.  [VersionLength] is
    the length of the array type [Version]. *)
Definition VersionFromUint32 (VersionLength : nat) (version : Z)
  : outcome bytes :=
  PutUint32 (replicate VersionLength x00) version.

(** ** The node command (cmd/beacond) *)

Module beacond.
Section beacond.
Context {ChainSpecInput Cmd : Type}.
(** [maxprocs.Set], the build of the root command for a chain spec input,
    and its run. *)
Context (maxprocs_Set : option error).
Context (Build : option ChainSpecInput → result Cmd).
Context (Run : Cmd → option error).
Context (ReadFile : string → result bytes).
Context (json_Unmarshal : bytes → result ChainSpecInput).

(** What [main] does that can be seen from outside. *)
Inductive event : Type :=
| ReadsFile (path : string)
| LogsError (msg : string)
| Runs (chainSpec : option ChainSpecInput)
| Exits (code : Z).

(** run runs the beacon node. *)
Definition run (chainSpec : option ChainSpecInput) : option error :=
  match maxprocs_Set with
  | Some err => Some err
  | None =>
      match Build chainSpec with
      | Err err => Some err
      | Ok cmd => Run cmd
      end
  end.

(** The end of [main]: the call of [run]. *)
Definition startup (chainSpecInput : option ChainSpecInput) : list event :=
  match run chainSpecInput with
  | Some err => [Runs chainSpecInput; LogsError "startup failure"; Exits 1]
  | None => [Runs chainSpecInput]
  end.

(** main is the entry point.  [chainSpecPath] is the value of the
    [chain-spec] flag, [specType] that of the variable [CHAIN_SPEC].  The
    [chainSpecInput] that [json.Unmarshal] fills is declared inside the
    [if] block; the one passed to [run] is the outer one. *)
Definition main (chainSpecPath specType : string) : list event :=
  if String.eqb chainSpecPath "" && String.eqb specType "" then
    [LogsError "Path to chain-spec must be specified or set env var CHAIN_SPEC";
     Exits 1]
  else
    let chainSpecInput : option ChainSpecInput := None in
    if negb (String.eqb chainSpecPath "") then
      match ReadFile chainSpecPath with
      | Err err =>
          [ReadsFile chainSpecPath;
           LogsError "Failed to open chain specification file"; Exits 1]
      | Ok b =>
          match json_Unmarshal b with
          | Err err =>
              [ReadsFile chainSpecPath;
               LogsError "Failed to unmarshal chain specification"; Exits 1]
          | Ok inner_chainSpecInput =>
              ReadsFile chainSpecPath :: startup chainSpecInput
          end
      end
    else startup chainSpecInput.
End beacond.
End beacond.

(** ** More doubles and observations *)

Definition hexdigit (n : N) : Ascii.ascii :=
  nth (N.to_nat n) (list_ascii_of_string "0123456789abcdef") Ascii.zero.

(** Bytes in hexadecimal, with the prefix [0x]. *)
Definition hex (bz : bytes) : string :=
  String.append "0x"
    (String.concat ""
       (map (λ b, String (hexdigit (Byte.to_N b / 16))
                    (String (hexdigit (Byte.to_N b mod 16)) EmptyString)) bz)).

Definition hexText : TextForms := {|
  Blob_MarshalText blob := Ok (hex blob);
  KZGCommitment_MarshalText commitment := Ok (hex (vec_to_list commitment));
  KZGProof_MarshalText proof := Ok (hex proof);
  Root_String root := hex root
|}.

(** A sidecar codec that refuses to serialize a sidecar without a blob. *)
Definition strictSSZ : SidecarSSZ := {|
  MarshalSSZ sc :=
    match Blob sc with
    | [] => Err (ErrSSZ 3)
    | _ => Ok (vec_to_list (KzgCommitment sc) ++ Blob sc)
    end;
  UnmarshalSSZ := @UnmarshalSSZ plainSSZ
|}.

(** A sidecar without a blob. *)
Definition sidecarEmpty : BlobSidecar := sidecarOf x03 [].

(** The store after the writes [ws] on the in-memory database. *)
Definition after (s : Store (gmap (Z * bytes) bytes)) (ws : list write)
  : Store (gmap (Z * bytes) bytes) :=
  mkStore (foldl apply_write (db s) ws) (issued s ++ ws).

(** The entry of the response and the sidecar it is made from. *)
Definition entry_of `{!TextForms} (sc : BlobSidecar)
    (entry : beacontypes.BlobSidecarData) : Prop :=
  beacontypes.Index entry = Index sc ∧
  Blob_MarshalText (Blob sc) = Ok (beacontypes.Blob entry) ∧
  KZGCommitment_MarshalText (KzgCommitment sc)
    = Ok (beacontypes.KZGCommitment entry) ∧
  KZGProof_MarshalText (KzgProof sc) = Ok (beacontypes.KZGProof entry) ∧
  beacontypes.KZGCommitmentInclusionProof entry
    = Root_String <$> InclusionProof sc.

(** The capacity of a slice. *)
Definition cap (s : slice) : nat := (length (data s) + length (beyond s))%nat.

(** * Properties *)

(** ** Scheduling *)

Lemma pick_Permutation {A : Type} (k : nat) (ready : list A) t rest :
  pick k ready = Some (t, rest) → ready ≡ₚ t :: rest.
Proof.
  revert k t rest. induction ready as [|x ready IH]; intros k t rest; simpl.
  { discriminate. }
  destruct k as [|k]; simpl.
  - intros [= <- <-]. reflexivity.
  - destruct (pick k ready) as [[u rest']|] eqn:Hpick; [|done].
    intros [= <- <-]. rewrite (IH _ _ _ Hpick). apply Permutation_swap.
Qed.

Lemma scheduled_Permutation {A : Type} (sched : list nat) (ready : list A) :
  scheduled sched ready ≡ₚ ready.
Proof.
  revert ready. induction sched as [|k sched IH]; intros ready; [done|].
  simpl. destruct (pick _ ready) as [[t rest]|] eqn:Hpick.
  - rewrite (pick_Permutation _ _ _ _ Hpick). by rewrite IH.
  - destruct ready as [|x ready]; [done|]. exfalso.
    assert (Hlt : (k mod length (x :: ready) < length (x :: ready))%nat)
      by (apply Nat.mod_upper_bound; simpl; lia).
    revert Hpick Hlt. generalize (k mod length (x :: ready))%nat.
    generalize (x :: ready). clear.
    intros l. induction l as [|y l IH]; intros n; simpl; [lia|].
    destruct n as [|n]; [done|].
    destruct (pick n l) as [[u r]|] eqn:E; [done|].
    intros _ ?. apply (IH n); [done|lia].
Qed.

Lemma pick_elem {A : Type} (t : A) (ready : list A) :
  t ∈ ready →
  ∃ k rest, (k < length ready)%nat ∧ pick k ready = Some (t, rest).
Proof.
  induction ready as [|x ready IH]; intros Hin.
  { by apply elem_of_nil in Hin. }
  apply elem_of_cons in Hin as [->|Hin].
  - exists 0%nat, ready. split; [simpl; lia|done].
  - destruct (IH Hin) as (k & rest & Hk & Hpick).
    exists (S k), (x :: rest). split; [simpl; lia|]. simpl. by rewrite Hpick.
Qed.

(** Every order of the goroutines is the choice of some scheduler. *)
Lemma scheduled_any_order {A : Type} (ready order : list A) :
  ready ≡ₚ order → ∃ sched, scheduled sched ready = order.
Proof.
  revert ready. induction order as [|t order IH]; intros ready Hperm.
  { apply Permutation_nil_r in Hperm as ->. by exists []. }
  assert (t ∈ ready) as Hin by (rewrite Hperm; by left).
  destruct (pick_elem t ready Hin) as (k & rest & Hk & Hpick).
  destruct (IH rest) as [sched Hsched].
  { apply (Permutation_cons_inv (a := t)).
    by rewrite <- (pick_Permutation _ _ _ _ Hpick). }
  exists (k :: sched). simpl. rewrite Nat.mod_small by done.
  by rewrite Hpick, Hsched.
Qed.

Example scheduled_launch_order : scheduled [] [x0a; x0b; x0c] = [x0a; x0b; x0c].
Proof. reflexivity. Qed.

Example scheduled_last_first :
  scheduled [2%nat; 0%nat] [x0a; x0b; x0c] = [x0c; x0a; x0b].
Proof. reflexivity. Qed.

Lemma indexed_lookup {A : Type} (xs : list A) (i : nat) (x : A) :
  (i, x) ∈ indexed xs ↔ xs !! i = Some x.
Proof.
  unfold indexed. rewrite elem_of_lookup_imap. split.
  - by intros (j & y & [= -> ->] & ?).
  - intros ?. by exists i, x.
Qed.

Lemma indexed_NoDup {A : Type} (xs : list A) : NoDup (indexed xs).*1.
Proof.
  unfold indexed. rewrite fmap_imap.
  rewrite (imap_ext _ (λ i _, i)) by done.
  rewrite imap_seq_0, list_fmap_id. apply NoDup_seq.
Qed.

Section Filling.
Context {A B : Type} (g : A → B).

Lemma fill_length ts acc : length (foldl (fill g) acc ts) = length acc.
Proof.
  revert acc. induction ts as [|t ts IH]; intros acc; simpl; [done|].
  rewrite IH. apply length_insert.
Qed.

Lemma fill_lookup_other ts acc j :
  j ∉ ts.*1 → foldl (fill g) acc ts !! j = acc !! j.
Proof.
  revert acc. induction ts as [|[i x] ts IH]; intros acc Hj; simpl; [done|].
  rewrite fmap_cons, not_elem_of_cons in Hj. destruct Hj as [Hne Hj].
  rewrite IH by done. unfold fill. simpl in *.
  by rewrite list_lookup_insert_ne.
Qed.

Lemma fill_lookup ts acc j x :
  NoDup ts.*1 → (j, x) ∈ ts → (j < length acc)%nat →
  foldl (fill g) acc ts !! j = Some (g x).
Proof.
  revert acc. induction ts as [|[i y] ts IH]; intros acc Hnd Hin Hlt.
  { by apply elem_of_nil in Hin. }
  rewrite fmap_cons in Hnd. apply NoDup_cons in Hnd as [Hi Hnd].
  apply elem_of_cons in Hin as [[= -> ->]|Hin]; simpl.
  - rewrite fill_lookup_other by done. unfold fill; simpl.
    by apply list_lookup_insert_eq.
  - apply IH; [done..|]. unfold fill. by rewrite length_insert.
Qed.

Lemma fill_scheduled sched (xs : list A) acc :
  length acc = length xs →
  foldl (fill g) acc (scheduled sched (indexed xs)) = g <$> xs.
Proof.
  intros Hlen. pose proof (scheduled_Permutation sched (indexed xs)) as Hp.
  apply list_eq. intros j. rewrite list_lookup_fmap.
  destruct (xs !! j) as [x|] eqn:Hj; simpl.
  - apply fill_lookup.
    + rewrite Hp. apply indexed_NoDup.
    + rewrite Hp. by apply indexed_lookup.
    + rewrite Hlen. by eapply lookup_lt_Some.
  - apply lookup_ge_None. rewrite fill_length, Hlen.
    by apply lookup_ge_None.
Qed.
End Filling.

(** ** The presence check *)

(** C1: [IsDataAvailable] answers true exactly when the lookup of every
    commitment of the list succeeds and reports the record present, and
    false exactly when some lookup reports it absent or fails; being a
    total function into [bool], it has no other way to end. *)
Theorem IsDataAvailable_iff_all_present
    {St : Type} `{!IndexDB St} (s : Store St) (slot : Z)
    (commitments : list KZGCommitment) :
  (IsDataAvailable s slot commitments = true ↔
     Forall (λ c, db_Has (db s) slot (vec_to_list c) = Ok true) commitments) ∧
  (IsDataAvailable s slot commitments = false ↔
     Exists (λ c, db_Has (db s) slot (vec_to_list c) = Ok false ∨
                  ∃ err, db_Has (db s) slot (vec_to_list c) = Err err)
            commitments).
Proof.
  induction commitments as [|c rest [IHt IHf]]; simpl.
  - split; [by split|]. split; [done|]. by intros ?%Exists_nil.
  - rewrite Forall_cons, Exists_cons.
    destruct (db_Has (db s) slot (vec_to_list c)) as [[]|err] eqn:Hhas.
    + rewrite IHt, IHf. split; [split; [by split|by intros [_ ?]]|].
      split; [by right|]. intros [[?|[? ?]]|?]; done.
    + split; [split; [done|by intros [? _]]|]. split; [by left; left|done].
    + split; [split; [done|by intros [? _]]|].
      split; [|done]. intros _. left. right. by exists err.
Qed.

(** ** The slot-commitment codec *)

Lemma int_of_byte_of_nat (n : nat) :
  (n < 256)%nat → int_of_byte (byte_of_nat n) = n.
Proof.
  intros Hn. unfold int_of_byte, byte_of_nat.
  rewrite N.mod_small by lia.
  destruct (Byte.of_N (N.of_nat n)) as [b|] eqn:Hb.
  - apply Byte.to_of_N in Hb. rewrite Hb. apply Nat2N.id.
  - apply Byte.of_N_None_iff in Hb. lia.
Qed.

Lemma reslice_middle (pre c post spare : bytes) (lo hi : nat) :
  lo = length pre → hi = (lo + length c)%nat →
  reslice (mkSlice (pre ++ c ++ post) spare) lo hi = Return c.
Proof.
  intros -> ->. unfold reslice; simpl. rewrite !length_app.
  rewrite decide_True by lia.
  replace (length pre + length c - length pre)%nat with (length c) by lia.
  rewrite <- !app_assoc, drop_app_length. by rewrite take_app_length.
Qed.

Lemma sliceCommitments_concat (commitments : list bytes) :
  Forall (λ c, length c = COMMITMENT_SIZE) commitments →
  ∀ (i : nat) (pre post spare : bytes),
    length pre = (1 + i * COMMITMENT_SIZE)%nat →
    sliceCommitments (mkSlice (pre ++ concat commitments ++ post) spare)
                     i (length commitments)
    = Return commitments.
Proof.
  unfold COMMITMENT_SIZE.
  induction 1 as [|c rest Hc _ IH]; intros i pre post spare Hpre; [done|].
  cbn [length sliceCommitments concat]. unfold COMMITMENT_SIZE.
  rewrite <- (app_assoc c).
  rewrite (reslice_middle pre c (concat rest ++ post) spare)
    by (rewrite ?Hc; lia).
  cbn [mbind outcome_bind].
  rewrite (app_assoc pre c), IH; [done|].
  rewrite length_app, Hpre, Hc. simpl. lia.
Qed.

Lemma deserialize_serialize (commitments : list bytes) (spare : bytes) :
  (length commitments < 256)%nat →
  Forall (λ c, length c = COMMITMENT_SIZE) commitments →
  deserializeCommitments (mkSlice (serializeCommitments commitments) spare)
  = Return commitments.
Proof.
  intros Hlen Hsize. unfold deserializeCommitments, serializeCommitments.
  unfold index; cbn [data lookup list_lookup mbind outcome_bind].
  rewrite int_of_byte_of_nat by done.
  rewrite <- (app_nil_r (concat commitments)).
  by apply (sliceCommitments_concat _ Hsize 0 [_] []).
Qed.

(** C6: decoding the encoding of a list of at most six 48-byte commitments
    (a count byte, then the commitments one after another) gives the list
    back, whatever lies past the end of the encoded slice. *)
Theorem codec_roundtrip (commitments : list bytes) (spare : bytes) :
  (length commitments ≤ 6)%nat →
  Forall (λ c, length c = 48%nat) commitments →
  deserializeCommitments (mkSlice (serializeCommitments commitments) spare)
  = Return commitments.
Proof. intros Hlen Hsize. apply deserialize_serialize; [lia|done]. Qed.

Lemma codec_roundtrip_witness :
  let commitments := [vec_to_list (commitmentOf x01);
                      vec_to_list (commitmentOf x02)] in
  deserializeCommitments (exact (serializeCommitments commitments))
  = Return commitments.
Proof.
  apply codec_roundtrip; [simpl; lia|].
  repeat constructor.
Defined.

(** ** Reading a slot without an index record *)

(** C10: when the read of the index key fails, with whatever error,
    [GetBlobsFromStore] returns an empty collection and no error. *)
Theorem GetBlobsFromStore_read_error_is_empty
    {St : Type} `{!IndexDB St} `{!SidecarSSZ} `{!SlotCommitmentsSSZ}
    (sched : list nat) (s : Store St) (slot : Z) (err : error) :
  db_Get (db s) slot SlotCommitmentsKey = Err err →
  V1.GetBlobsFromStore sched s slot = Ok [] ∧
  V2.GetBlobsFromStore sched s slot = Return (Ok []).
Proof.
  intros Hget. unfold V1.GetBlobsFromStore, V2.GetBlobsFromStore.
  by rewrite Hget.
Qed.

Lemma GetBlobsFromStore_read_error_is_empty_witness :
  @V1.GetBlobsFromStore _ FaultyDB plainSSZ rejectingSSZ [] (mkStore () []) 7
    = Ok [] ∧
  @V2.GetBlobsFromStore _ FaultyDB plainSSZ [] (mkStore () []) 7
    = Return (Ok []).
Proof.
  apply (@GetBlobsFromStore_read_error_is_empty _ FaultyDB plainSSZ
           rejectingSSZ [] (mkStore () []) 7 (ErrIO 5)).
  reflexivity.
Defined.

(** C8: for a slot whose index key is absent from the database,
    [GetBlobsFromStore] returns an empty collection and no error. *)
Theorem GetBlobsFromStore_absent_index_is_empty
    `{!SidecarSSZ} `{!SlotCommitmentsSSZ}
    (sched : list nat) (s : Store (gmap (Z * bytes) bytes)) (slot : Z) :
  db s !! (slot, SlotCommitmentsKey) = None →
  V1.GetBlobsFromStore sched s slot = Ok [] ∧
  V2.GetBlobsFromStore sched s slot = Return (Ok []).
Proof.
  intros Habsent. unfold V1.GetBlobsFromStore, V2.GetBlobsFromStore.
  cbn [db_Get MemDB]. by rewrite Habsent.
Qed.

Lemma GetBlobsFromStore_absent_index_is_empty_witness :
  @V1.GetBlobsFromStore _ MemDB plainSSZ rejectingSSZ [] emptyStore 7 = Ok [] ∧
  @V2.GetBlobsFromStore _ MemDB plainSSZ [] emptyStore 7 = Return (Ok []).
Proof.
  apply (@GetBlobsFromStore_absent_index_is_empty plainSSZ rejectingSSZ
           [] emptyStore 7).
  reflexivity.
Defined.

(** ** Persisting outside the retention window *)

(** C9: when the slot of the first sidecar's block header is outside the
    retention window for the current slot, [Persist] returns success and
    leaves the store as it was: no [Set] call is made. *)
Theorem Persist_outside_DA_period_no_writes
    {St : Type} `{!IndexDB St} `{!ChainSpec} `{!SidecarSSZ}
    (sched : list nat) (s : Store St) (slot : Z)
    (first : BlobSidecar) (rest : list (option BlobSidecar)) :
  WithinDAPeriod (GetSlot (Header first)) slot = false →
  V1.Persist s slot (Some (Some first :: rest)) = Return (s, None) ∧
  V2.Persist sched s slot (Some (Some first :: rest)) = Return (s, None).
Proof.
  intros Hout. unfold V1.Persist, V2.Persist. by rewrite Hout.
Qed.

Lemma Persist_outside_DA_period_no_writes_witness :
  let sidecars := Some [Some (sidecarOf x01 [x0a]); Some (sidecarOf x02 [x0b])] in
  @V1.Persist _ MemDB (windowSpec 10) plainSSZ emptyStore 11 sidecars
    = Return (emptyStore, None) ∧
  @V2.Persist _ MemDB (windowSpec 10) plainSSZ [1%nat] emptyStore 11 sidecars
    = Return (emptyStore, None).
Proof.
  apply (@Persist_outside_DA_period_no_writes _ MemDB (windowSpec 10) plainSSZ).
  reflexivity.
Defined.

(** ** The writes of [Persist] *)

Lemma commitment_keyed_not_index (w : write) :
  commitment_keyed w → w_key w ≠ SlotCommitmentsKey.
Proof. unfold commitment_keyed. intros Hlen Heq. by rewrite Heq in Hlen. Qed.

Lemma written_since_refl {St : Type} (s : Store St) : written_since s s [].
Proof. unfold written_since. by rewrite app_nil_r. Qed.

Lemma written_since_trans {St : Type} (s1 s2 s3 : Store St) new1 new2 :
  written_since s1 s2 new1 → written_since s2 s3 new2 →
  written_since s1 s3 (new1 ++ new2).
Proof. unfold written_since. intros H1 H2. by rewrite H2, H1, app_assoc. Qed.

Section Writes.
Context {St : Type} `{!IndexDB St} `{!ChainSpec} `{!SidecarSSZ}.

Lemma store_Set_written (s : Store St) slot key value :
  written_since s (store_Set s slot key value).1 [mkWrite slot key value].
Proof. unfold store_Set. by destruct (db_Set _ _ _ _). Qed.

Lemma store_Set_db (s : Store St) slot key value :
  db (store_Set s slot key value).1 = (db_Set (db s) slot key value).1 ∧
  (store_Set s slot key value).2 = (db_Set (db s) slot key value).2.
Proof. unfold store_Set. by destruct (db_Set _ _ _ _). Qed.

Lemma store_each_written slot (sidecars : list (option BlobSidecar))
    (s : Store St) :
  ∃ new, written_since s (V1.store_each slot sidecars s).1 new ∧
         Forall commitment_keyed new.
Proof.
  revert s. induction sidecars as [|[sc|] rest IH]; intros s; simpl;
    try (exists []; split; [apply written_since_refl|constructor]).
  destruct (MarshalSSZ sc) as [bz|err];
    [|exists []; split; [apply written_since_refl|constructor]].
  pose proof (store_Set_written s slot (vec_to_list (KzgCommitment sc)) bz)
    as Hset.
  destruct (store_Set s slot _ bz) as [s' [err|]]; simpl in Hset.
  - eexists; split; [exact Hset|]. repeat constructor.
    unfold commitment_keyed; simpl. apply length_vec_to_list.
  - destruct (IH s') as (new & Hnew & Hkeyed).
    eexists; split; [by eapply written_since_trans|].
    constructor; [|done]. unfold commitment_keyed; simpl.
    apply length_vec_to_list.
Qed.

Lemma store_each_nil_after slot (before : list BlobSidecar) rest
    (s s' : Store St) :
  V1.store_each slot (Some <$> before) s = (s', None) →
  V1.store_each slot ((Some <$> before) ++ None :: rest) s
  = (s', Some ErrAttemptedToStoreNilSidecar).
Proof.
  revert s. induction before as [|sc before IH]; intros s; simpl.
  { by intros [= ->]. }
  destruct (MarshalSSZ sc) as [bz|err]; [|done].
  destruct (store_Set s slot _ bz) as [s1 [err|]]; [done|]. apply IH.
Qed.

Lemma persist_all_written slot (tasks : list (nat * BlobSidecar))
    (p : persisting St) :
  ∃ new, written_since (p_store p)
           (p_store (foldl (V2.persist_one slot) p tasks)) new ∧
         Forall commitment_keyed new.
Proof.
  revert p. induction tasks as [|[i sc] tasks IH]; intros p; simpl.
  { exists []. split; [apply written_since_refl|constructor]. }
  destruct (MarshalSSZ sc) as [bz|err]; [|by apply (IH (mkPersisting _ _ _))].
  pose proof (store_Set_written (p_store p) slot
                (vec_to_list (KzgCommitment sc)) bz) as Hset.
  destruct (store_Set (p_store p) slot _ bz) as [s' [err|]]; simpl in Hset.
  all: match goal with
       | |- context [foldl _ ?q _] =>
           destruct (IH q) as (new & Hnew & Hkeyed)
       end.
  all: eexists; split; [eapply written_since_trans; [exact Hset|exact Hnew]|].
  all: constructor; [|done]; unfold commitment_keyed; simpl.
  all: apply length_vec_to_list.
Qed.

Lemma launch_nil_seen (i : nat) (before : list BlobSidecar) rest :
  (V2.launch i ((Some <$> before) ++ None :: rest)).2 = true.
Proof.
  revert i. induction before as [|sc before IH]; intros i; simpl; [done|].
  specialize (IH (S i)). by destruct (V2.launch _ _).
Qed.
End Writes.

Lemma V1_Persist_within
    {St : Type} `{!IndexDB St} `{!ChainSpec} `{!SidecarSSZ}
    (s : Store St) (slot : Z) first rest :
  WithinDAPeriod (GetSlot (Header first)) slot = true →
  V1.Persist s slot (Some (Some first :: rest))
  = Return (V1.store_each slot (Some first :: rest) s).
Proof. intros Hda. unfold V1.Persist. by rewrite Hda. Qed.

(** C7, amended: a nil entry after at least one sidecar, with the
    retention check passing.  Where the sidecars are stored one after the
    other and storing the entries before the nil one succeeds, [Persist]
    returns the nil-sidecar error; where they are stored by goroutines it
    returns that error whatever the goroutines meet.  Either way every
    write of the call is keyed by a commitment, none by the index key. *)
Theorem Persist_nil_sidecar
    {St : Type} `{!IndexDB St} `{!ChainSpec} `{!SidecarSSZ}
    (sched : list nat) (s : Store St) (slot : Z)
    (first : BlobSidecar) (before : list BlobSidecar)
    (rest : list (option BlobSidecar)) :
  let preceding := Some <$> first :: before in
  let sidecars := Some (preceding ++ None :: rest) in
  WithinDAPeriod (GetSlot (Header first)) slot = true →
  (∀ s1, V1.Persist s slot (Some preceding) = Return (s1, None) →
     V1.Persist s slot sidecars
       = Return (s1, Some ErrAttemptedToStoreNilSidecar) ∧
     ∃ new, written_since s s1 new ∧
            Forall (λ w, w_key w ≠ SlotCommitmentsKey) new) ∧
  (∃ s2, V2.Persist sched s slot sidecars
           = Return (s2, Some ErrAttemptedToStoreNilSidecar) ∧
     ∃ new, written_since s s2 new ∧
            Forall (λ w, w_key w ≠ SlotCommitmentsKey) new).
Proof.
  intros preceding sidecars Hda. split.
  - intros s1. unfold sidecars, preceding. rewrite fmap_cons.
    change ((?x :: ?l) ++ ?k) with (x :: (l ++ k)).
    rewrite !V1_Persist_within by done.
    intros Hret.
    assert (V1.store_each slot (Some first :: (Some <$> before)) s
            = (s1, None)) as Hpre by congruence.
    clear Hret. split.
    + f_equal. by apply (store_each_nil_after slot (first :: before)).
    + destruct (store_each_written slot (Some first :: (Some <$> before)) s)
        as (new & Hnew & Hkeyed).
      rewrite Hpre in Hnew. exists new. split; [done|].
      eapply Forall_impl; [exact Hkeyed|]. apply commitment_keyed_not_index.
  - unfold V2.Persist, sidecars, preceding.
    rewrite fmap_cons. cbn [app]. rewrite Hda. cbn [negb].
    pose proof (launch_nil_seen 0 (first :: before) rest) as Hnil.
    rewrite fmap_cons in Hnil. cbn [app] in Hnil.
    destruct (V2.launch 0 _) as [started nil_seen]. simpl in Hnil. subst.
    eexists. split; [reflexivity|].
    edestruct (persist_all_written slot) as (new & Hnew & Hkeyed).
    exists new. split; [exact Hnew|].
    eapply Forall_impl; [exact Hkeyed|]. apply commitment_keyed_not_index.
Qed.

Lemma Persist_nil_sidecar_witness :
  let sidecars := Some [Some (sidecarOf x01 [x0a]); None;
                        Some (sidecarOf x02 [x0b])] in
  returned (@V1.Persist _ MemDB (windowSpec 10) plainSSZ emptyStore 5 sidecars)
    = Return (Some ErrAttemptedToStoreNilSidecar) ∧
  returned (@V2.Persist _ MemDB (windowSpec 10) plainSSZ [] emptyStore 5 sidecars)
    = Return (Some ErrAttemptedToStoreNilSidecar).
Proof.
  destruct (@Persist_nil_sidecar _ MemDB (windowSpec 10) plainSSZ [] emptyStore
              5 (sidecarOf x01 [x0a]) [] [Some (sidecarOf x02 [x0b])] eq_refl)
    as [Hseq (s2 & Hpar & _)].
  split.
  - edestruct Hseq as [Hret _]; [reflexivity|].
    exact (f_equal returned Hret).
  - exact (f_equal returned Hpar).
Defined.

(** C7 as first stated fails where the sidecars are stored one after the
    other: a write that fails before the nil entry is reached ends the
    call with the error of the write. *)
Lemma failed_write_hides_nil_sidecar :
  let sidecars := Some [Some (sidecarOf x01 [x0a]); None] in
  @WithinDAPeriod (windowSpec 10) 0 5 = true ∧
  returned (@V1.Persist _ FaultyDB (windowSpec 10) plainSSZ (mkStore () []) 5
              sidecars)
    = Return (Some (ErrIO 5)) ∧
  returned (@V1.Persist _ FaultyDB (windowSpec 10) plainSSZ (mkStore () []) 5
              sidecars)
    ≠ Return (Some ErrAttemptedToStoreNilSidecar).
Proof. repeat split. discriminate. Qed.

(** ** Persisting into the in-memory database *)

Section Memory.
Context `{!ChainSpec} `{!SidecarSSZ}.
Implicit Types (m : gmap (Z * bytes) bytes) (slot : Z).
Implicit Types (tasks : list (nat * BlobSidecar)).

Lemma launch_all (i : nat) (sidecars : list BlobSidecar) :
  V2.launch i (Some <$> sidecars) = (imap (λ j, pair (i + j)%nat) sidecars, false).
Proof.
  revert i. induction sidecars as [|sc rest IH]; intros i; simpl; [done|].
  rewrite IH. rewrite Nat.add_0_r. do 2 f_equal.
  apply imap_ext. intros j x _. simpl. f_equal. lia.
Qed.

(** With every sidecar serializable, the goroutines leave no error
    behind, whatever their order. *)
Lemma persist_all_mem slot tasks (p : persisting (gmap (Z * bytes) bytes)) :
  Forall (λ t, ∃ bz, MarshalSSZ t.2 = Ok bz) tasks →
  foldl (V2.persist_one slot) p tasks
  = mkPersisting
      (mkStore (foldl apply_write (db (p_store p)) (record_of slot <$> tasks.*2))
               (issued (p_store p) ++ (record_of slot <$> tasks.*2)))
      (p_errChan p)
      (foldl (fill (λ sc, commitmentKey sc)) (p_commitments p) tasks).
Proof.
  intros Hok. revert p.
  induction Hok as [|[i sc] tasks [bz Hbz] _ IH]; intros [[d log] errs cs].
  { simpl. by rewrite app_nil_r. }
  cbn [foldl]. unfold V2.persist_one at 2. simpl in Hbz. rewrite Hbz.
  unfold store_Set. cbn [db_Set MemDB db issued p_store p_errChan p_commitments].
  rewrite IH. cbn [p_store p_errChan p_commitments db issued].
  rewrite !fmap_cons. cbn [foldl fst snd].
  assert (record_of slot sc = mkWrite slot (commitmentKey sc) bz) as ->
    by (unfold record_of; by rewrite Hbz).
  by rewrite <- app_assoc.
Qed.

Lemma apply_writes_other m (ws : list write) k :
  k ∉ (λ w, (w_slot w, w_key w)) <$> ws →
  foldl apply_write m ws !! k = m !! k.
Proof.
  revert m. induction ws as [|w ws IH]; intros m Hk; simpl; [done|].
  rewrite fmap_cons, not_elem_of_cons in Hk. destruct Hk as [Hne Hk].
  rewrite IH by done. unfold apply_write. by rewrite lookup_insert_ne.
Qed.

(** After the writes, the record under the key of any of them is the
    value of one of them with that key. *)
Lemma apply_writes_lookup m (ws : list write) (w : write) :
  w ∈ ws →
  ∃ w', w' ∈ ws ∧ w_slot w' = w_slot w ∧ w_key w' = w_key w ∧
        foldl apply_write m ws !! (w_slot w, w_key w) = Some (w_value w').
Proof.
  revert m w. induction ws as [|u ws IH]; intros m w Hin.
  { by apply elem_of_nil in Hin. }
  destruct (decide ((w_slot w, w_key w) ∈ (λ w, (w_slot w, w_key w)) <$> ws))
    as [Hlater|Hlast].
  - apply list_elem_of_fmap in Hlater as (v & Hkey & Hv).
    destruct (IH (apply_write m u) v Hv) as (w' & Hw' & Hs & Hk & Hlook).
    injection Hkey as Hs' Hk'.
    exists w'. split; [by right|]. simpl. rewrite Hs', Hk'. done.
  - apply elem_of_cons in Hin as [->|Hin].
    + exists u. split; [by left|]. split; [done|]. split; [done|].
      simpl. rewrite apply_writes_other by done.
      unfold apply_write. apply lookup_insert_eq.
    + exfalso. apply Hlast. apply list_elem_of_fmap. by exists w.
Qed.
End Memory.

Section Reading.
Context {St : Type} `{!IndexDB St} `{!SidecarSSZ}.

Lemma fetch_each_found (s : Store St) (slot : Z) (tasks : list (nat * bytes))
    (f : fetching) :
  Forall (λ t, is_Some (fetched s slot t.2)) tasks →
  foldl (fetch_one s slot) f tasks
  = mkFetching (f_errChan f)
      (foldl (fill (fetched s slot)) (f_sidecars f) tasks).
Proof.
  intros Hall. revert f.
  induction Hall as [|[i c] tasks [sc Hsc] _ IH]; intros [errs scs]; [done|].
  cbn [foldl]. rewrite IH. simpl in Hsc.
  assert (fetch_one s slot (mkFetching errs scs) (i, c)
          = mkFetching errs (fill (fetched s slot) scs (i, c))) as ->; [|done].
  unfold fetch_one, fill, fetched in *. simpl.
  destruct (db_Get (db s) slot c) as [bz|]; [|done].
  by destruct (UnmarshalSSZ (data bz)) as [sidecar|].
Qed.

(** When every commitment of the list leads to a sidecar, the readers
    return the sidecars in the order of the list, whatever their own
    order. *)
Lemma fetch_all_found (sched : list nat) (s : Store St) (slot : Z)
    (commitments : list bytes) :
  Forall (λ c, is_Some (fetched s slot c)) commitments →
  fetch_all sched s slot commitments = Ok (fetched s slot <$> commitments).
Proof.
  intros Hall. unfold fetch_all. rewrite fetch_each_found.
  - cbn [f_errChan f_sidecars]. rewrite fill_scheduled; [done|].
    apply length_replicate.
  - apply Forall_forall. intros [i c] Hin.
    rewrite scheduled_Permutation in Hin. apply indexed_lookup in Hin.
    rewrite Forall_forall in Hall. apply Hall.
    apply list_elem_of_lookup. by exists i.
Qed.
End Reading.

Section Roundtrip.
Context `{!ChainSpec} `{!SidecarSSZ}.

(** [Persist] of non-nil sidecars into the in-memory database: the
    records of the sidecars in the order of the goroutines, then the
    index record, which lists the commitments in input order. *)
Lemma V2_Persist_mem (sched : list nat) (s : Store (gmap (Z * bytes) bytes))
    (slot : Z) (first : BlobSidecar) (rest : list BlobSidecar) :
  let sidecars := first :: rest in
  let records :=
    record_of slot <$> (scheduled sched (indexed sidecars)).*2 in
  let index := mkWrite slot SlotCommitmentsKey
                 (serializeCommitments ((λ sc, commitmentKey sc) <$> sidecars)) in
  WithinDAPeriod (GetSlot (Header first)) slot = true →
  Forall (λ sc, ∃ bz, MarshalSSZ sc = Ok bz) sidecars →
  V2.Persist sched s slot (Some (Some <$> sidecars))
  = Return (mkStore (apply_write (foldl apply_write (db s) records) index)
                    (issued s ++ records ++ [index]), None).
Proof.
  intros sidecars records index Hda Hok.
  unfold V2.Persist.
  change (Some <$> sidecars) with (Some first :: (Some <$> rest)).
  cbv iota. rewrite Hda. cbn [negb].
  change (Some first :: (Some <$> rest)) with (Some <$> sidecars).
  rewrite launch_all.
  change (imap _ sidecars) with (indexed sidecars).
  rewrite persist_all_mem.
  - cbn [p_store p_errChan p_commitments db issued].
    rewrite fill_scheduled
      by (by rewrite length_replicate, !length_fmap).
    unfold store_Set. cbn [db_Set MemDB db issued].
    by rewrite <- app_assoc.
  - apply Forall_forall. intros [i sc] Hin.
    rewrite scheduled_Permutation in Hin. apply indexed_lookup in Hin.
    rewrite Forall_forall in Hok. apply Hok.
    apply list_elem_of_lookup. by exists i.
Qed.

Lemma commitmentKey_not_index (sc : BlobSidecar) :
  commitmentKey sc ≠ SlotCommitmentsKey.
Proof.
  intros Heq. pose proof (length_vec_to_list (KzgCommitment sc)) as Hlen.
  by rewrite Heq in Hlen.
Qed.

Lemma scheduled_sidecars (sched : list nat) (sidecars : list BlobSidecar) sc :
  sc ∈ (scheduled sched (indexed sidecars)).*2 ↔ sc ∈ sidecars.
Proof.
  rewrite scheduled_Permutation, list_elem_of_fmap. split.
  - intros ([i sc'] & -> & Hin). apply indexed_lookup in Hin.
    apply list_elem_of_lookup. by exists i.
  - intros [i Hi]%list_elem_of_lookup. exists (i, sc).
    split; [done|]. by apply indexed_lookup.
Qed.

(** Reading back after [Persist]: under the commitment of a persisted
    sidecar lies a persisted sidecar with that commitment. *)
Lemma fetched_after_Persist (sched : list nat) (slot : Z)
    (sidecars : list BlobSidecar) (s : Store (gmap (Z * bytes) bytes))
    (index : write) (log : list write) (sc : BlobSidecar) :
  let records := record_of slot <$> (scheduled sched (indexed sidecars)).*2 in
  Forall (λ sc, ∃ bz, MarshalSSZ sc = Ok bz ∧ UnmarshalSSZ bz = Ok sc)
         sidecars →
  w_key index = SlotCommitmentsKey →
  sc ∈ sidecars →
  ∃ sc', sc' ∈ sidecars ∧ KzgCommitment sc' = KzgCommitment sc ∧
    fetched (mkStore (apply_write (foldl apply_write (db s) records) index) log)
            slot (commitmentKey sc) = Some sc'.
Proof.
  intros records Hcodec Hindex Hsc.
  assert (record_of slot sc ∈ records) as Hrec.
  { apply list_elem_of_fmap_2. by apply scheduled_sidecars. }
  destruct (apply_writes_lookup (db s) records _ Hrec)
    as (w' & Hw' & _ & Hkey & Hlook).
  apply list_elem_of_fmap in Hw' as (sc' & -> & Hsc').
  apply scheduled_sidecars in Hsc'. simpl in Hkey, Hlook.
  exists sc'. split; [done|]. split; [by apply vec_to_list_inj2|].
  rewrite Forall_forall in Hcodec.
  destruct (Hcodec sc' Hsc') as (bz & Hbz & Hback).
  unfold fetched. cbn [db_Get MemDB db]. unfold apply_write at 1.
  rewrite lookup_insert_ne.
  - rewrite Hlook. rewrite Hbz. simpl. by rewrite Hback.
  - rewrite Hindex. intros [= _ Heq]. by eapply commitmentKey_not_index.
Qed.
End Roundtrip.

Lemma NoDup_fmap_elem_inj {A B : Type} (f : A → B) (l : list A) (x y : A) :
  NoDup (f <$> l) → x ∈ l → y ∈ l → f x = f y → x = y.
Proof.
  induction l as [|z l IH]; intros Hnd Hx Hy Hf.
  { by apply elem_of_nil in Hx. }
  rewrite fmap_cons in Hnd. apply NoDup_cons in Hnd as [Hz Hnd].
  apply elem_of_cons in Hx as [->|Hx]; apply elem_of_cons in Hy as [->|Hy].
  - done.
  - exfalso. apply Hz. rewrite Hf. by apply list_elem_of_fmap_2.
  - exfalso. apply Hz. rewrite <- Hf. by apply list_elem_of_fmap_2.
  - by apply IH.
Qed.

(** The round trip of the second version: for one to six non-nil
    sidecars within the retention window, any two of which with the same
    commitment carry the same payload (so in particular for pairwise
    distinct commitments), [Persist] with the index write into an empty
    database followed by [GetBlobsFromStore] returns sidecars equal to the
    input by commitment and payload, in input order, whatever the order of
    the goroutines; with pairwise distinct commitments it returns the
    input itself.  The sidecar codec is assumed to read back what it wrote
    for these sidecars. *)
Theorem Persist_GetBlobsFromStore_roundtrip
    `{!ChainSpec} `{!SidecarSSZ}
    (sched sched' : list nat) (slot : Z) (sidecars : list BlobSidecar) :
  (1 ≤ length sidecars ≤ 6)%nat →
  Forall (λ sc, WithinDAPeriod (GetSlot (Header sc)) slot = true) sidecars →
  Forall (λ sc, ∃ bz, MarshalSSZ sc = Ok bz ∧ UnmarshalSSZ bz = Ok sc)
         sidecars →
  (∀ a b, a ∈ sidecars → b ∈ sidecars →
          KzgCommitment a = KzgCommitment b → Blob a = Blob b) →
  ∃ s' out,
    V2.Persist sched emptyStore slot (Some (Some <$> sidecars))
      = Return (s', None) ∧
    V2.GetBlobsFromStore sched' s' slot = Return (Ok (Some <$> out)) ∧
    content <$> out = content <$> sidecars ∧
    (NoDup (KzgCommitment <$> sidecars) → out = sidecars).
Proof.
  intros Hlen Hda Hcodec Hpayload.
  destruct sidecars as [|first rest]; [simpl in Hlen; lia|].
  set (sidecars := first :: rest) in *.
  assert (WithinDAPeriod (GetSlot (Header first)) slot = true) as Hfirst
    by (by apply Forall_cons in Hda as [? _]).
  assert (Forall (λ sc, ∃ bz, MarshalSSZ sc = Ok bz) sidecars) as Hok.
  { eapply Forall_impl; [exact Hcodec|]. intros sc (bz & ? & _). by exists bz. }
  pose proof (V2_Persist_mem sched emptyStore slot first rest Hfirst Hok)
    as Hpersist.
  cbv zeta in Hpersist. fold sidecars in Hpersist.
  match type of Hpersist with
  | _ = Return (?st, None) => set (s' := st) in *
  end.
  assert (∀ sc, sc ∈ sidecars →
            ∃ sc', sc' ∈ sidecars ∧ KzgCommitment sc' = KzgCommitment sc ∧
                   fetched s' slot (commitmentKey sc) = Some sc') as Hback.
  { intros sc Hsc. by apply fetched_after_Persist. }
  set (out := λ sc, default sc (fetched s' slot (commitmentKey sc))).
  exists s', (out <$> sidecars).
  split; [exact Hpersist|].
  split; [|split].
  - unfold V2.GetBlobsFromStore. cbn [db_Get MemDB].
    unfold s' at 1. cbn [db]. unfold apply_write at 1. cbn [w_slot w_key w_value].
    rewrite lookup_insert_eq. unfold exact.
    rewrite deserialize_serialize.
    + cbn [mbind outcome_bind]. rewrite fetch_all_found.
      * do 2 f_equal. rewrite <- !list_fmap_compose.
        apply Forall_fmap_ext_1, Forall_forall. intros sc Hsc.
        destruct (Hback sc Hsc) as (sc' & _ & _ & Hsc'). simpl.
        unfold out. by rewrite Hsc'.
      * apply Forall_fmap, Forall_forall. intros sc Hsc.
        destruct (Hback sc Hsc) as (sc' & _ & _ & Hsc'). simpl. by rewrite Hsc'.
    + rewrite length_fmap. lia.
    + apply Forall_fmap, Forall_forall. intros sc _. simpl.
      apply length_vec_to_list.
  - rewrite <- list_fmap_compose.
    apply Forall_fmap_ext_1, Forall_forall. intros sc Hsc.
    destruct (Hback sc Hsc) as (sc' & Hin & Hcomm & Hsc'). simpl.
    unfold out, content. rewrite Hsc'. simpl. rewrite Hcomm. f_equal.
    by apply Hpayload.
  - intros Hnd. rewrite <- (list_fmap_id sidecars) at 2.
    apply Forall_fmap_ext_1, Forall_forall. intros sc Hsc.
    destruct (Hback sc Hsc) as (sc' & Hin & Hcomm & Hsc').
    unfold out. rewrite Hsc'. simpl.
    by apply (NoDup_fmap_elem_inj KzgCommitment sidecars).
Qed.

Lemma Persist_GetBlobsFromStore_roundtrip_witness :
  ∃ s' out,
    @V2.Persist _ MemDB (windowSpec 10) plainSSZ [1%nat] emptyStore 5
      (Some (Some <$> [sidecarA; sidecarB])) = Return (s', None) ∧
    @V2.GetBlobsFromStore _ MemDB plainSSZ [] s' 5
      = Return (Ok (Some <$> out)) ∧
    content <$> out = content <$> [sidecarA; sidecarB] ∧
    (NoDup (KzgCommitment <$> [sidecarA; sidecarB]) →
     out = [sidecarA; sidecarB]).
Proof.
  apply (@Persist_GetBlobsFromStore_roundtrip (windowSpec 10) plainSSZ
           [1%nat] [] 5 [sidecarA; sidecarB]).
  - simpl. lia.
  - repeat constructor.
  - repeat constructor; eexists; split; reflexivity.
  - intros a b Ha Hb.
    apply elem_of_cons in Ha as [->|Ha]; [|apply elem_of_cons in Ha as [->|Ha]];
      [| |by apply elem_of_nil in Ha].
    all: apply elem_of_cons in Hb as [->|Hb];
      [|apply elem_of_cons in Hb as [->|Hb]]; [| |by apply elem_of_nil in Hb].
    all: first [reflexivity | intros Hcomm; vm_compute in Hcomm; discriminate].
Defined.

(** Sidecars that share a commitment share a record.  Two sidecars with
    one commitment and different payloads, which a slot does not hold
    when its commitments are commitments to the blobs, are stored under
    the one key, and the one stored last is read back twice, whichever
    goroutine runs last. *)
Lemma roundtrip_shared_commitment :
  let sidecars := [sidecarA; sidecarA'] in
  Forall (λ sc, @WithinDAPeriod (windowSpec 10) (GetSlot (Header sc)) 5 = true)
         sidecars ∧
  Forall (λ sc, ∃ bz, @MarshalSSZ plainSSZ sc = Ok bz ∧
                      @UnmarshalSSZ plainSSZ bz = Ok sc) sidecars ∧
  (∃ s', @V2.Persist _ MemDB (windowSpec 10) plainSSZ [] emptyStore 5
           (Some (Some <$> sidecars)) = Return (s', None) ∧
         @V2.GetBlobsFromStore _ MemDB plainSSZ [] s' 5
           = Return (Ok [Some sidecarA'; Some sidecarA'])) ∧
  (∃ s', @V2.Persist _ MemDB (windowSpec 10) plainSSZ [1%nat] emptyStore 5
           (Some (Some <$> sidecars)) = Return (s', None) ∧
         @V2.GetBlobsFromStore _ MemDB plainSSZ [] s' 5
           = Return (Ok [Some sidecarA; Some sidecarA])) ∧
  content <$> [sidecarA'; sidecarA'] ≠ content <$> sidecars ∧
  content <$> [sidecarA; sidecarA] ≠ content <$> sidecars.
Proof.
  intros sidecars. split; [repeat constructor|].
  split; [repeat constructor; eexists; split; reflexivity|].
  split; [eexists; split; [reflexivity|]; vm_compute; reflexivity|].
  split; [eexists; split; [reflexivity|]; vm_compute; reflexivity|].
  split; intros Heq; vm_compute in Heq; discriminate.
Qed.

(** C2: the round trip fails on the first version of the file.  [Persist]
    of two sidecars with distinct commitments, within the retention
    window, into the empty in-memory database returns success and stores
    the record of each, so that [IsDataAvailable] holds for both
    commitments; it writes no index record, and [GetBlobsFromStore] for
    the slot then returns the empty collection, whatever the decoder of
    the index and the order of the readers.  On the same input the second
    version returns the two sidecars in input order. *)
Theorem V1_roundtrip_returns_nothing :
  ∃ s1, @V1.Persist _ MemDB (windowSpec 10) plainSSZ emptyStore 5
          (Some [Some sidecarA; Some sidecarB]) = Return (s1, None) ∧
        @IsDataAvailable _ MemDB s1 5 [commitmentOf x01; commitmentOf x02]
          = true ∧
        (∀ (decoder : SlotCommitmentsSSZ) (sched : list nat),
           @V1.GetBlobsFromStore _ MemDB plainSSZ decoder sched s1 5 = Ok []) ∧
        ∃ s2, @V2.Persist _ MemDB (windowSpec 10) plainSSZ [] emptyStore 5
                (Some [Some sidecarA; Some sidecarB]) = Return (s2, None) ∧
              @V2.GetBlobsFromStore _ MemDB plainSSZ [] s2 5
                = Return (Ok [Some sidecarA; Some sidecarB]).
Proof.
  eexists. split; [reflexivity|].
  split; [vm_compute; reflexivity|].
  split; [intros decoder sched; reflexivity|].
  eexists. split; [reflexivity|]. vm_compute. reflexivity.
Qed.

(** ** The index record *)

Section Index.
Context {St : Type} `{!IndexDB St} `{!ChainSpec} `{!SidecarSSZ}.

(** The first version of [Persist] writes sidecar records only. *)
Lemma V1_Persist_never_writes_index (s s' : Store St) (slot : Z)
    sidecars (err : option error) :
  V1.Persist s slot sidecars = Return (s', err) →
  ∃ new, written_since s s' new ∧
         Forall (λ w, w_key w ≠ SlotCommitmentsKey) new.
Proof.
  unfold V1.Persist. intros Hret.
  assert (s' = s ∨ ∃ all, s' = (V1.store_each slot all s).1) as [->|[all ->]].
  { destruct sidecars as [[|[first|] rest]|]; try (left; congruence).
    destruct (negb _); [left; congruence|].
    right. exists (Some first :: rest).
    assert (V1.store_each slot (Some first :: rest) s = (s', err)) as ->
      by congruence.
    done. }
  - exists []. split; [apply written_since_refl|constructor].
  - destruct (store_each_written slot all s) as (new & Hnew & Hkeyed).
    exists new. split; [done|].
    eapply Forall_impl; [exact Hkeyed|]. apply commitment_keyed_not_index.
Qed.

(** The first version stores the sidecars in input order: the writes of
    a call are the records of an initial part of the list. *)
Lemma V1_store_each_in_order (slot : Z) sidecars (s : Store St) :
  ∃ stored rest,
    sidecars = (Some <$> stored) ++ rest ∧
    written_since s (V1.store_each slot sidecars s).1
      (record_of slot <$> stored).
Proof.
  revert s. induction sidecars as [|[sc|] sidecars IH]; intros s; simpl.
  - exists [], []. split; [done|apply written_since_refl].
  - destruct (MarshalSSZ sc) as [bz|err] eqn:Hbz.
    + pose proof (store_Set_written s slot (commitmentKey sc) bz) as Hset.
      assert (record_of slot sc = mkWrite slot (commitmentKey sc) bz) as Hrec
        by (unfold record_of; by rewrite Hbz).
      destruct (store_Set s slot _ bz) as [s1 [err|]]; simpl in Hset.
      * exists [sc], sidecars. split; [done|]. simpl. by rewrite Hrec.
      * destruct (IH s1) as (stored & rest & -> & Hnew).
        exists (sc :: stored), rest. split; [done|].
        rewrite fmap_cons, Hrec.
        by apply (written_since_trans _ _ _ [_] _ Hset).
    + exists [], (Some sc :: sidecars). split; [done|apply written_since_refl].
  - exists [], (None :: sidecars). split; [done|apply written_since_refl].
Qed.

Lemma persist_all_quiet (slot : Z) (tasks : list (nat * BlobSidecar))
    (p : persisting St) :
  p_errChan (foldl (V2.persist_one slot) p tasks) = [] →
  p_errChan p = [] ∧
  p_commitments (foldl (V2.persist_one slot) p tasks)
  = foldl (fill (λ sc, commitmentKey sc)) (p_commitments p) tasks.
Proof.
  revert p. induction tasks as [|[i sc] tasks IH]; intros p; [done|].
  cbn [foldl]. intros Hquiet. destruct (IH _ Hquiet) as [Hone ->].
  unfold V2.persist_one in Hone |- *.
  destruct (MarshalSSZ sc) as [bz|err].
  - destruct (store_Set (p_store p) slot _ bz) as [s1 [err|]]; simpl in *.
    + by apply app_eq_nil in Hone as [_ ?].
    + done.
  - simpl in Hone. by apply app_eq_nil in Hone as [_ ?].
Qed.

Lemma launch_none_nil (i : nat) (all : list (option BlobSidecar)) started :
  V2.launch i all = (started, false) →
  ∃ sidecars, all = Some <$> sidecars ∧
              started = imap (λ j, pair (i + j)%nat) sidecars.
Proof.
  revert i started. induction all as [|[sc|] all IH]; intros i started; simpl.
  - intros [= <-]. by exists [].
  - destruct (V2.launch (S i) all) as [started' nil_seen] eqn:Hl.
    intros [= <- ->]. destruct (IH _ _ Hl) as (sidecars & -> & ->).
    exists (sc :: sidecars). split; [done|]. simpl.
    rewrite Nat.add_0_r. f_equal. apply imap_ext. intros j x _. simpl.
    f_equal. lia.
  - done.
Qed.

(** The second version of [Persist], when it stores a non-empty list and
    succeeds: no entry is nil, the sidecar records are written first, and
    the last write is the index record, the encoding of the commitments
    in input order. *)
Lemma V2_Persist_index_last (sched : list nat) (s s' : Store St) (slot : Z)
    (first : BlobSidecar) (rest : list (option BlobSidecar)) :
  WithinDAPeriod (GetSlot (Header first)) slot = true →
  V2.Persist sched s slot (Some (Some first :: rest)) = Return (s', None) →
  ∃ sidecars earlier,
    Some first :: rest = Some <$> sidecars ∧
    written_since s s'
      (earlier ++ [mkWrite slot SlotCommitmentsKey
                     (serializeCommitments
                        ((λ sc, commitmentKey sc) <$> sidecars))]) ∧
    Forall commitment_keyed earlier.
Proof.
  intros Hda. unfold V2.Persist. rewrite Hda. cbn [negb].
  destruct (V2.launch 0 (Some first :: rest)) as [started nil_seen] eqn:Hl.
  destruct nil_seen; [done|].
  destruct (launch_none_nil _ _ _ Hl) as (sidecars & Hall & ->).
  change (imap _ sidecars) with (indexed sidecars).
  match goal with
  | |- context [foldl _ ?q ?ts] =>
      destruct (persist_all_written slot ts q) as (earlier & Hearlier & Hkeyed);
      pose proof (persist_all_quiet slot ts q) as Hquiet
  end.
  destruct (p_errChan (foldl _ _ _)) as [|err errs]; [|done].
  destruct (Hquiet eq_refl) as [_ Hcs]. rewrite Hcs.
  cbn [p_commitments]. rewrite fill_scheduled
    by (by rewrite Hall, length_replicate, !length_fmap).
  match goal with
  | |- context [store_Set ?st slot ?k ?v] =>
      pose proof (store_Set_written st slot k v) as Hset;
      destruct (store_Set st slot k v) as [s2 [err|]]
  end; [done|]. intros [= ->].
  exists sidecars, earlier. split; [done|]. split; [|done].
  by eapply written_since_trans.
Qed.
End Index.

(** C3: the first version of [Persist], storing two sidecars into an empty
    database with success, makes two writes, one per sidecar and none under
    the index key; the slot has no index record afterwards, and
    [GetBlobsFromStore] finds no sidecar for it. *)
Theorem V1_Persist_leaves_no_index :
  ∃ s', @V1.Persist _ MemDB (windowSpec 10) plainSSZ emptyStore 5
          (Some [Some sidecarA; Some sidecarB]) = Return (s', None) ∧
        w_key <$> issued s' = [commitmentKey sidecarA; commitmentKey sidecarB] ∧
        db s' !! (5, SlotCommitmentsKey) = None ∧
        @V1.GetBlobsFromStore _ MemDB plainSSZ rejectingSSZ [] s' 5 = Ok [].
Proof.
  eexists. split; [reflexivity|].
  split; [reflexivity|]. split; vm_compute; reflexivity.
Qed.

(** ** The order of the writes *)

(** C4: the second version of [Persist] hands the writes to goroutines;
    when the scheduler runs the goroutine of the second sidecar first, the
    record of the second sidecar is written before the record of the
    first. *)
Theorem V2_Persist_writes_in_goroutine_order :
  ∃ s', @V2.Persist _ MemDB (windowSpec 10) plainSSZ [1%nat] emptyStore 5
          (Some [Some sidecarA; Some sidecarB]) = Return (s', None) ∧
        w_key <$> issued s'
        = [commitmentKey sidecarB; commitmentKey sidecarA; SlotCommitmentsKey].
Proof. eexists. split; reflexivity. Qed.

(** ** Malformed index records *)

Lemma V2_GetBlobsFromStore_empty_index
    {St : Type} `{!IndexDB St} `{!SidecarSSZ}
    (sched : list nat) (s : Store St) (slot : Z) (spare : bytes) :
  db_Get (db s) slot SlotCommitmentsKey = Ok (mkSlice [] spare) →
  V2.GetBlobsFromStore sched s slot = Panic "index out of range".
Proof. intros Hget. unfold V2.GetBlobsFromStore. by rewrite Hget. Qed.

(** The first version hands the record to the SSZ decoder and returns
    the error of the decoder. *)
Lemma V1_GetBlobsFromStore_decode_error
    {St : Type} `{!IndexDB St} `{!SidecarSSZ} `{!SlotCommitmentsSSZ}
    (sched : list nat) (s : Store St) (slot : Z) (record : slice) (err : error) :
  db_Get (db s) slot SlotCommitmentsKey = Ok record →
  SlotCommitments_UnmarshalSSZ (data record) = Err err →
  V1.GetBlobsFromStore sched s slot = Err err.
Proof.
  intros Hget Hdec. unfold V1.GetBlobsFromStore. by rewrite Hget, Hdec.
Qed.

(** A record shorter than its count byte announces is read past its end
    when the slice has the capacity for it. *)
Lemma deserialize_reads_past_length :
  deserializeCommitments (mkSlice [x01] (replicate 48 xff))
  = Return [replicate 48 xff].
Proof. reflexivity. Qed.

(** C5: the second version of [GetBlobsFromStore] panics on an index
    record that is empty, and on one that holds a count byte of one and
    nothing else (in a slice without spare capacity); it returns no
    error. *)
Theorem V2_GetBlobsFromStore_malformed_index_panics :
  @V2.GetBlobsFromStore _ MemDB plainSSZ []
    (mkStore (<[(5, SlotCommitmentsKey) := []]> ∅) []) 5
    = Panic "index out of range" ∧
  @V2.GetBlobsFromStore _ MemDB plainSSZ []
    (mkStore (<[(5, SlotCommitmentsKey) := [x01]]> ∅) []) 5
    = Panic "slice bounds out of range".
Proof. split; vm_compute; reflexivity. Qed.

(** * Further properties *)

(** ** The codec beyond its intended range *)

Lemma int_of_byte_of_nat_mod (n : nat) :
  int_of_byte (byte_of_nat n) = (n mod 256)%nat.
Proof.
  unfold int_of_byte, byte_of_nat.
  assert (N.of_nat n mod 256 < 256)%N as Hlt by (apply N.mod_lt; lia).
  destruct (Byte.of_N (N.of_nat n mod 256)) as [b|] eqn:Hb.
  - apply Byte.to_of_N in Hb. rewrite Hb, N2Nat.inj_mod, Nat2N.id. done.
  - apply Byte.of_N_None_iff in Hb. lia.
Qed.

(** X1: the count byte holds the number of commitments modulo 256 and
    nothing checks it: decoding the encoding of any list of 48-byte
    commitments gives the first [length mod 256] of them. *)
Theorem codec_count_wraps (commitments : list bytes) (spare : bytes) :
  Forall (λ c, length c = 48%nat) commitments →
  deserializeCommitments (mkSlice (serializeCommitments commitments) spare)
  = Return (take (length commitments mod 256) commitments).
Proof.
  intros Hsize. unfold deserializeCommitments, serializeCommitments.
  unfold index; cbn [data lookup list_lookup mbind outcome_bind].
  rewrite int_of_byte_of_nat_mod.
  set (m := (length commitments mod 256)%nat).
  assert (m ≤ length commitments)%nat as Hm
    by (apply Nat.Div0.mod_le).
  replace (concat commitments)
    with (concat (take m commitments) ++ concat (drop m commitments))
    by (by rewrite <- concat_app, take_drop).
  pose proof (sliceCommitments_concat _ (Forall_take _ m _ Hsize) 0
                [byte_of_nat (length commitments)]
                (concat (drop m commitments)) spare eq_refl) as Hslice.
  by rewrite length_take_le in Hslice by done.
Qed.

Lemma codec_count_wraps_witness :
  deserializeCommitments
    (mkSlice (serializeCommitments
                (replicate 257 (vec_to_list (commitmentOf x01)))) [])
  = Return (take (length (replicate 257 (vec_to_list (commitmentOf x01)))
                  mod 256)
              (replicate 257 (vec_to_list (commitmentOf x01)))).
Proof.
  exact (codec_count_wraps (replicate 257 (vec_to_list (commitmentOf x01))) []
           (Forall_replicate _ 257 _ (length_vec_to_list (commitmentOf x01)))).
Defined.

(** X2: the decoder reads the count byte and that many commitments and
    ignores what follows them in the record. *)
Theorem codec_ignores_trailing_bytes (commitments : list bytes)
    (trailing spare : bytes) :
  (length commitments < 256)%nat →
  Forall (λ c, length c = 48%nat) commitments →
  deserializeCommitments
    (mkSlice (serializeCommitments commitments ++ trailing) spare)
  = Return commitments.
Proof.
  intros Hlen Hsize. unfold deserializeCommitments, serializeCommitments.
  unfold index; cbn [app data lookup list_lookup mbind outcome_bind].
  rewrite int_of_byte_of_nat by done.
  by apply (sliceCommitments_concat _ Hsize 0 [_]).
Qed.

Lemma codec_ignores_trailing_bytes_witness :
  deserializeCommitments
    (exact (serializeCommitments [vec_to_list (commitmentOf x01)]
              ++ [xff; xfe]))
  = Return [vec_to_list (commitmentOf x01)].
Proof.
  apply (codec_ignores_trailing_bytes [vec_to_list (commitmentOf x01)]).
  - simpl. lia.
  - repeat constructor.
Defined.

Lemma reslice_Return (s : slice) (lo hi : nat) (c : bytes) :
  reslice s lo hi = Return c →
  (lo ≤ hi ∧ hi ≤ cap s)%nat ∧ c = take (hi - lo) (drop lo (data s ++ beyond s)).
Proof.
  unfold reslice, cap. case_decide; [|done]. by intros [= <-].
Qed.

Lemma sliceCommitments_panics (s : slice) (i remaining : nat) :
  (∃ msg, sliceCommitments s i remaining = Panic msg) ↔
  (0 < remaining ∧ cap s < 1 + 48 * (i + remaining))%nat.
Proof.
  revert i. induction remaining as [|n IH]; intros i; cbn [sliceCommitments].
  { split; [by intros [? ?]|lia]. }
  unfold reslice, COMMITMENT_SIZE. fold (cap s).
  case_decide as Hbound; cbn [mbind outcome_bind].
  - destruct (sliceCommitments s (S i) n) as [rest|msg] eqn:Hrest;
      cbn [mbind outcome_bind].
    + split; [by intros [? ?]|]. intros [_ Hcap].
      assert (∃ msg, sliceCommitments s (S i) n = Panic msg) as [msg Hmsg].
      { apply IH. destruct n as [|n]; [lia|]. lia. }
      congruence.
    + split; [|by eexists]. intros _.
      assert (0 < n ∧ cap s < 1 + 48 * (S i + n))%nat as [? ?]
        by (apply IH; by eexists).
      lia.
  - split; [|by eexists]. intros _. lia.
Qed.

(** X3: the decoder panics exactly on an empty record and on a record
    whose slice has a capacity below one byte plus 48 bytes for each
    commitment that the count byte announces; on no record does it return
    an error. *)
Theorem deserializeCommitments_panics_iff (s : slice) :
  (∃ msg, deserializeCommitments s = Panic msg) ↔
  data s = [] ∨
  ∃ count rest, data s = count :: rest ∧
                (cap s < 1 + 48 * int_of_byte count)%nat.
Proof.
  unfold deserializeCommitments, index.
  destruct (data s) as [|count rest] eqn:Hdata; cbn [lookup list_lookup mbind outcome_bind].
  { split; [by left|by eexists]. }
  rewrite sliceCommitments_panics. split.
  - intros [_ Hcap]. right. by exists count, rest.
  - intros [?|(count' & rest' & [= <- <-] & Hcap)]; [done|].
    split; [|done]. unfold cap in Hcap. rewrite Hdata in Hcap.
    cbn [length] in Hcap. lia.
Qed.

Lemma sliceCommitments_Return (s : slice) (i remaining : nat) cs :
  sliceCommitments s i remaining = Return cs →
  length cs = remaining ∧ Forall (λ c, length c = 48%nat) cs ∧
  concat cs = take (48 * remaining) (drop (1 + 48 * i) (data s ++ beyond s)).
Proof.
  revert i cs. induction remaining as [|n IH]; intros i cs;
    cbn [sliceCommitments].
  { intros [= <-]. by rewrite Nat.mul_0_r, take_0. }
  unfold COMMITMENT_SIZE.
  destruct (reslice s _ _) as [c|] eqn:Hc; cbn [mbind outcome_bind]; [|done].
  destruct (sliceCommitments s (S i) n) as [rest|] eqn:Hrest;
    cbn [mbind outcome_bind]; [|done].
  intros [= <-]. apply reslice_Return in Hc as [[_ Hcap] ->].
  destruct (IH _ _ Hrest) as (Hlen & Hsize & Hconcat).
  unfold cap in Hcap. rewrite <- length_app in Hcap.
  replace (1 + i * 48 + 48 - (1 + i * 48))%nat with 48%nat by lia.
  replace (1 + i * 48)%nat with (1 + 48 * i)%nat by lia.
  split; [cbn [length]; by rewrite Hlen|]. split.
  - constructor; [|done]. rewrite length_take, length_drop. lia.
  - cbn [concat]. rewrite Hconcat.
    replace (1 + 48 * S i)%nat with ((1 + 48 * i) + 48)%nat by lia.
    rewrite <- (drop_drop _ 48 (1 + 48 * i)), take_take_drop. f_equal. lia.
Qed.

(** X4: what the decoder returns is shaped by the count byte alone: as
    many commitments as the first byte says, each of 48 bytes, cut one
    after the other from the bytes that follow it (past the length of the
    record if need be). *)
Theorem deserializeCommitments_shape (s : slice) (commitments : list bytes) :
  deserializeCommitments s = Return commitments →
  ∃ count, data s !! 0%nat = Some count ∧
    length commitments = int_of_byte count ∧
    Forall (λ c, length c = 48%nat) commitments ∧
    concat commitments
    = take (48 * int_of_byte count) (drop 1 (data s ++ beyond s)).
Proof.
  unfold deserializeCommitments, index.
  destruct (data s !! 0%nat) as [count|] eqn:Hcount;
    cbn [mbind outcome_bind]; [|done].
  intros Hret. apply sliceCommitments_Return in Hret as (Hlen & Hsize & Hcat).
  exists count. by rewrite Hcat.
Qed.

Lemma deserializeCommitments_shape_witness :
  ∃ count, data (mkSlice [x01] (replicate 48 xff)) !! 0%nat = Some count ∧
    length [replicate 48 xff] = int_of_byte count ∧
    Forall (λ c, length c = 48%nat) [replicate 48 xff] ∧
    concat [replicate 48 xff]
    = take (48 * int_of_byte count)
        (drop 1 (data (mkSlice [x01] (replicate 48 xff))
                 ++ beyond (mkSlice [x01] (replicate 48 xff)))).
Proof.
  apply (deserializeCommitments_shape (mkSlice [x01] (replicate 48 xff))).
  reflexivity.
Defined.

(** ** The presence check and the order of the commitments *)

Lemma IsDataAvailable_true_iff {St : Type} `{!IndexDB St} (s : Store St)
    (slot : Z) (commitments : list KZGCommitment) :
  IsDataAvailable s slot commitments = true ↔
  Forall (λ c, db_Has (db s) slot (vec_to_list c) = Ok true) commitments.
Proof.
  induction commitments as [|c rest IH]; simpl; [by split|].
  rewrite Forall_cons.
  destruct (db_Has (db s) slot (vec_to_list c)) as [[]|err].
  - rewrite IH. split; [by split|by intros [_ ?]].
  - split; [done|by intros [? _]].
  - split; [done|by intros [? _]].
Qed.

Lemma IsDataAvailable_app {St : Type} `{!IndexDB St} (s : Store St)
    (slot : Z) (cs cs' : list KZGCommitment) :
  IsDataAvailable s slot (cs ++ cs')
  = IsDataAvailable s slot cs && IsDataAvailable s slot cs'.
Proof.
  induction cs as [|c cs IH]; simpl; [done|].
  by destruct (db_Has (db s) slot (vec_to_list c)) as [[]|err].
Qed.

(** X5: although the loop stops at the first commitment that is missing,
    its answer does not depend on the order in which the block lists its
    commitments. *)
Theorem IsDataAvailable_any_order {St : Type} `{!IndexDB St} (s : Store St)
    (slot : Z) (commitments commitments' : list KZGCommitment) :
  commitments ≡ₚ commitments' →
  IsDataAvailable s slot commitments = IsDataAvailable s slot commitments'.
Proof.
  intros Hperm.
  destruct (IsDataAvailable s slot commitments) eqn:Hone;
    destruct (IsDataAvailable s slot commitments') eqn:Hother; try done.
  - apply IsDataAvailable_true_iff in Hone. rewrite Hperm in Hone.
    apply IsDataAvailable_true_iff in Hone. congruence.
  - apply IsDataAvailable_true_iff in Hother. rewrite <- Hperm in Hother.
    apply IsDataAvailable_true_iff in Hother. congruence.
Qed.

Lemma IsDataAvailable_any_order_witness :
  @IsDataAvailable _ MemDB (after emptyStore [record_of (H := plainSSZ) 5 sidecarA])
     5 [commitmentOf x01; commitmentOf x02]
  = @IsDataAvailable _ MemDB (after emptyStore [record_of (H := plainSSZ) 5 sidecarA])
     5 [commitmentOf x02; commitmentOf x01].
Proof.
  apply IsDataAvailable_any_order. apply Permutation_swap.
Defined.

(** ** [Persist] on the in-memory database *)

Lemma after_nil (s : Store (gmap (Z * bytes) bytes)) : after s [] = s.
Proof. destruct s as [d log]. unfold after. simpl. by rewrite app_nil_r. Qed.

Lemma after_app (s : Store (gmap (Z * bytes) bytes)) (ws1 ws2 : list write) :
  after (after s ws1) ws2 = after s (ws1 ++ ws2).
Proof. unfold after. simpl. by rewrite foldl_app, app_assoc. Qed.

Lemma mem_store_Set (s : Store (gmap (Z * bytes) bytes)) slot key value :
  store_Set s slot key value = (after s [mkWrite slot key value], None).
Proof. done. Qed.

Lemma apply_writes_same_key (ws : list write) (m m' : gmap (Z * bytes) bytes) k :
  m !! k = m' !! k →
  foldl apply_write m ws !! k = foldl apply_write m' ws !! k.
Proof.
  revert m m'. induction ws as [|w ws IH]; intros m m' Hk; simpl; [done|].
  apply IH. unfold apply_write.
  destruct (decide ((w_slot w, w_key w) = k)) as [<-|Hne].
  - by rewrite !lookup_insert_eq.
  - by rewrite !lookup_insert_ne.
Qed.

Lemma apply_writes_written_key (ws : list write) (m m' : gmap (Z * bytes) bytes) k :
  k ∈ (λ w, (w_slot w, w_key w)) <$> ws →
  foldl apply_write m ws !! k = foldl apply_write m' ws !! k.
Proof.
  revert m m'. induction ws as [|w ws IH]; intros m m' Hk; simpl.
  { by apply elem_of_nil in Hk. }
  destruct (decide (k ∈ (λ w, (w_slot w, w_key w)) <$> ws)) as [Hin|Hnotin].
  - by apply IH.
  - rewrite fmap_cons in Hk. apply elem_of_cons in Hk as [->|Hk]; [|done].
    apply apply_writes_same_key. unfold apply_write.
    by rewrite !lookup_insert_eq.
Qed.

(** Writing the same records again leaves the database as it is. *)
Lemma apply_writes_twice (ws : list write) (m : gmap (Z * bytes) bytes) :
  foldl apply_write (foldl apply_write m ws) ws = foldl apply_write m ws.
Proof.
  apply map_eq. intros k.
  destruct (decide (k ∈ (λ w, (w_slot w, w_key w)) <$> ws)) as [Hin|Hnotin].
  - by apply apply_writes_written_key.
  - by rewrite apply_writes_other.
Qed.

Section Shape.
Context `{!ChainSpec} `{!SidecarSSZ}.
Implicit Types (s : Store (gmap (Z * bytes) bytes)) (slot : Z).

(** On the in-memory database the writes of [Persist] and its result are
    the same from every state of the store. *)
Lemma V1_store_each_mem slot (sidecars : list (option BlobSidecar)) :
  ∃ ws r, Forall (λ w, w_slot w = slot ∧ commitment_keyed w) ws ∧
          ∀ s, V1.store_each slot sidecars s = (after s ws, r).
Proof.
  induction sidecars as [|[sc|] sidecars (ws & r & Hws & IH)].
  - exists [], None. split; [constructor|]. intros s. by rewrite after_nil.
  - destruct (MarshalSSZ sc) as [bz|err] eqn:Hbz.
    + exists (mkWrite slot (commitmentKey sc) bz :: ws), r. split.
      * constructor; [|done]. split; [done|]. apply length_vec_to_list.
      * intros s. cbn [V1.store_each]. rewrite Hbz, mem_store_Set, IH.
        by rewrite after_app.
    + exists [], (Some err). split; [constructor|].
      intros s. cbn [V1.store_each]. by rewrite Hbz, after_nil.
  - exists [], (Some ErrAttemptedToStoreNilSidecar). split; [constructor|].
    intros s. by rewrite after_nil.
Qed.

Lemma V2_persist_all_mem_shape slot (tasks : list (nat * BlobSidecar)) :
  ∃ ws errs (upd : list bytes → list bytes),
    Forall (λ w, w_slot w = slot ∧ commitment_keyed w) ws ∧
    ∀ p : persisting (gmap (Z * bytes) bytes),
      foldl (V2.persist_one slot) p tasks
      = mkPersisting (after (p_store p) ws) (p_errChan p ++ errs)
                     (upd (p_commitments p)).
Proof.
  induction tasks as [|[i sc] tasks (ws & errs & upd & Hws & IH)].
  - exists [], [], id. split; [constructor|]. intros [st ec cs]. simpl.
    by rewrite after_nil, app_nil_r.
  - destruct (MarshalSSZ sc) as [bz|err] eqn:Hbz.
    + exists (mkWrite slot (commitmentKey sc) bz :: ws), errs,
        (λ cs, upd (<[i := commitmentKey sc]> cs)). split.
      * constructor; [|done]. split; [done|]. apply length_vec_to_list.
      * intros p. cbn [foldl]. unfold V2.persist_one at 2.
        rewrite Hbz, mem_store_Set, IH.
        cbn [p_store p_errChan p_commitments]. by rewrite after_app.
    + exists ws, (err :: errs), upd. split; [done|].
      intros p. cbn [foldl]. unfold V2.persist_one at 2. rewrite Hbz, IH.
      cbn [p_store p_errChan p_commitments]. by rewrite <- app_assoc.
Qed.

Lemma V1_Persist_mem_shape slot sidecars :
  (∃ msg, ∀ s, V1.Persist s slot sidecars = Panic msg) ∨
  (∃ ws r, Forall (λ w, w_slot w = slot) ws ∧
           ∀ s, V1.Persist s slot sidecars = Return (after s ws, r)).
Proof.
  destruct sidecars as [[|[first|] rest]|].
  - right. exists [], None. split; [constructor|]. intros s. by rewrite after_nil.
  - right. unfold V1.Persist.
    destruct (negb (WithinDAPeriod (GetSlot (Header first)) slot)).
    + exists [], None. split; [constructor|]. intros s. by rewrite after_nil.
    + destruct (V1_store_each_mem slot (Some first :: rest))
        as (ws & r & Hws & Heach).
      exists ws, r. split.
      * eapply Forall_impl; [exact Hws|]. by intros w [? _].
      * intros s. by rewrite Heach.
  - left. by eexists.
  - right. exists [], None. split; [constructor|]. intros s. by rewrite after_nil.
Qed.

Lemma V2_Persist_mem_shape (sched : list nat) slot sidecars :
  (∃ msg, ∀ s, V2.Persist sched s slot sidecars = Panic msg) ∨
  (∃ ws r, Forall (λ w, w_slot w = slot) ws ∧
           (r ≠ None → Forall commitment_keyed ws) ∧
           ∀ s, V2.Persist sched s slot sidecars = Return (after s ws, r)).
Proof.
  destruct sidecars as [[|[first|] rest]|].
  - right. exists [], None. repeat split; [constructor..|].
    intros s. by rewrite after_nil.
  - right. unfold V2.Persist.
    destruct (negb (WithinDAPeriod (GetSlot (Header first)) slot)).
    { exists [], None. repeat split; [constructor..|].
      intros s. by rewrite after_nil. }
    destruct (V2.launch 0 (Some first :: rest)) as [started nil_seen].
    destruct (V2_persist_all_mem_shape slot (scheduled sched started))
      as (ws & errs & upd & Hws & Hall).
    assert (Forall (λ w, w_slot w = slot) ws) as Hslot
      by (eapply Forall_impl; [exact Hws|]; by intros w [? _]).
    assert (Forall commitment_keyed ws) as Hkeyed
      by (eapply Forall_impl; [exact Hws|]; by intros w [_ ?]).
    destruct nil_seen.
    { exists ws, (Some ErrAttemptedToStoreNilSidecar). repeat split; [done..|].
      intros s. by rewrite Hall. }
    destruct errs as [|err errs].
    + exists (ws ++ [mkWrite slot SlotCommitmentsKey
                       (serializeCommitments
                          (upd (replicate (length (Some first :: rest)) [])))]),
        None.
      split; [|split; [done|]].
      * apply Forall_app. split; [done|]. by repeat constructor.
      * intros s. rewrite Hall. cbn [p_store p_errChan p_commitments app].
        by rewrite mem_store_Set, after_app.
    + exists ws, (Some err). repeat split; [done..|].
      intros s. by rewrite Hall.
  - left. by eexists.
  - right. exists [], None. repeat split; [constructor..|].
    intros s. by rewrite after_nil.
Qed.
End Shape.

(** X6: [Persist] for a slot writes under keys of that slot only: on the
    in-memory database the records of every other slot are after the call
    what they were before it, in both versions and whatever the call
    returns. *)
Theorem Persist_touches_only_its_slot `{!ChainSpec} `{!SidecarSSZ}
    (sched : list nat) (s s' : Store (gmap (Z * bytes) bytes)) (slot : Z)
    (sidecars : option (list (option BlobSidecar))) (r : option error)
    (slot' : Z) (key : bytes) :
  slot' ≠ slot →
  V1.Persist s slot sidecars = Return (s', r) ∨
  V2.Persist sched s slot sidecars = Return (s', r) →
  db s' !! (slot', key) = db s !! (slot', key).
Proof.
  intros Hne Hret.
  assert (∃ ws, Forall (λ w, w_slot w = slot) ws ∧ s' = after s ws)
    as (ws & Hws & ->).
  { destruct Hret as [Hret|Hret].
    - destruct (V1_Persist_mem_shape slot sidecars)
        as [[msg Hp]|(ws & r' & Hws & Hp)]; rewrite Hp in Hret; [done|].
      exists ws. split; [done|]. congruence.
    - destruct (V2_Persist_mem_shape sched slot sidecars)
        as [[msg Hp]|(ws & r' & Hws & _ & Hp)]; rewrite Hp in Hret; [done|].
      exists ws. split; [done|]. congruence. }
  unfold after. cbn [db]. apply apply_writes_other.
  intros (w & [= Hslot _] & Hw)%list_elem_of_fmap.
  rewrite Forall_forall in Hws. specialize (Hws w Hw). congruence.
Qed.

Lemma Persist_touches_only_its_slot_witness :
  ∃ s', @V2.Persist _ MemDB (windowSpec 10) plainSSZ [1%nat]
          (after emptyStore [record_of (H := plainSSZ) 6 sidecarA]) 5
          (Some [Some sidecarA; Some sidecarB]) = Return (s', None) ∧
        db s' !! (6, commitmentKey sidecarA)
        = db (after emptyStore [record_of (H := plainSSZ) 6 sidecarA])
            !! (6, commitmentKey sidecarA).
Proof.
  eexists. split; [reflexivity|].
  apply (@Persist_touches_only_its_slot (windowSpec 10) plainSSZ [1%nat]
           (after emptyStore [record_of (H := plainSSZ) 6 sidecarA]) _ 5
           (Some [Some sidecarA; Some sidecarB]) None 6); [lia|].
  right. reflexivity.
Defined.

(** X7: persisting the same list for the same slot a second time returns
    what the first call returned and leaves the in-memory database as the
    first call left it: for the first version on every list, for the
    second version on the lists without a nil entry, whose goroutines the
    call joins before it returns, under the same schedule. *)
Theorem Persist_again_changes_nothing `{!ChainSpec} `{!SidecarSSZ}
    (sched : list nat) (s s1 : Store (gmap (Z * bytes) bytes)) (slot : Z)
    (sidecars : option (list (option BlobSidecar)))
    (present : list BlobSidecar) (r : option error) :
  (V1.Persist s slot sidecars = Return (s1, r) →
   ∃ s2, V1.Persist s1 slot sidecars = Return (s2, r) ∧ db s2 = db s1) ∧
  (V2.Persist sched s slot (Some (Some <$> present)) = Return (s1, r) →
   ∃ s2, V2.Persist sched s1 slot (Some (Some <$> present)) = Return (s2, r) ∧
         db s2 = db s1).
Proof.
  split; intros Hret.
  - destruct (V1_Persist_mem_shape slot sidecars)
      as [[msg Hp]|(ws & r' & _ & Hp)]; rewrite Hp in Hret; [done|].
    injection Hret as <- <-. exists (after (after s ws) ws).
    split; [apply Hp|]. apply apply_writes_twice.
  - destruct (V2_Persist_mem_shape sched slot (Some (Some <$> present)))
      as [[msg Hp]|(ws & r' & _ & _ & Hp)]; rewrite Hp in Hret; [done|].
    injection Hret as <- <-. exists (after (after s ws) ws).
    split; [apply Hp|]. apply apply_writes_twice.
Qed.

Lemma Persist_again_changes_nothing_witness :
  ∃ s2,
    @V2.Persist _ MemDB (windowSpec 10) plainSSZ [1%nat]
      (after emptyStore
         [record_of (H := plainSSZ) 5 sidecarB;
          record_of (H := plainSSZ) 5 sidecarA;
          mkWrite 5 SlotCommitmentsKey
            (serializeCommitments [commitmentKey sidecarA;
                                   commitmentKey sidecarB])]) 5
      (Some (Some <$> [sidecarA; sidecarB])) = Return (s2, None) ∧
    db s2 = db (after emptyStore
                  [record_of (H := plainSSZ) 5 sidecarB;
                   record_of (H := plainSSZ) 5 sidecarA;
                   mkWrite 5 SlotCommitmentsKey
                     (serializeCommitments [commitmentKey sidecarA;
                                            commitmentKey sidecarB])]).
Proof.
  apply (proj2 (@Persist_again_changes_nothing (windowSpec 10) plainSSZ
                  [1%nat] emptyStore _ 5 None [sidecarA; sidecarB] None)).
  reflexivity.
Defined.

(** X8: a call of the second version of [Persist] that returns an error
    leaves the index record of the slot as it was on the in-memory
    database; for a slot without an index record, [GetBlobsFromStore]
    still returns an empty collection afterwards, whatever sidecar
    records the call wrote. *)
Theorem V2_failed_Persist_leaves_index `{!ChainSpec} `{!SidecarSSZ}
    (sched sched' : list nat) (s s' : Store (gmap (Z * bytes) bytes))
    (slot : Z) (sidecars : option (list (option BlobSidecar))) (err : error) :
  V2.Persist sched s slot sidecars = Return (s', Some err) →
  db s' !! (slot, SlotCommitmentsKey) = db s !! (slot, SlotCommitmentsKey) ∧
  (db s !! (slot, SlotCommitmentsKey) = None →
   V2.GetBlobsFromStore sched' s' slot = Return (Ok [])).
Proof.
  intros Hret.
  destruct (V2_Persist_mem_shape sched slot sidecars)
    as [[msg Hp]|(ws & r' & _ & Hkeyed & Hp)]; rewrite Hp in Hret; [done|].
  injection Hret as <- ->.
  assert (db (after s ws) !! (slot, SlotCommitmentsKey)
          = db s !! (slot, SlotCommitmentsKey)) as Hsame.
  { unfold after. cbn [db]. apply apply_writes_other.
    intros (w & [= _ Hkey] & Hw)%list_elem_of_fmap.
    specialize (Hkeyed ltac:(done)). rewrite Forall_forall in Hkeyed.
    by apply (commitment_keyed_not_index w); [apply Hkeyed|]. }
  split; [done|]. intros Hnone.
  unfold V2.GetBlobsFromStore. cbn [db_Get MemDB]. by rewrite Hsame, Hnone.
Qed.

Lemma V2_failed_Persist_leaves_index_witness :
  ∃ s', @V2.Persist _ MemDB (windowSpec 10) plainSSZ [] emptyStore 5
          (Some [Some sidecarA; None]) 
        = Return (s', Some ErrAttemptedToStoreNilSidecar) ∧
        db s' !! (5, SlotCommitmentsKey)
        = db emptyStore !! (5, SlotCommitmentsKey) ∧
        (db emptyStore !! (5, SlotCommitmentsKey) = None →
         @V2.GetBlobsFromStore _ MemDB plainSSZ [] s' 5 = Return (Ok [])).
Proof.
  eexists. split; [reflexivity|].
  apply (@V2_failed_Persist_leaves_index (windowSpec 10) plainSSZ [] []
           emptyStore _ 5 (Some [Some sidecarA; None])
           ErrAttemptedToStoreNilSidecar).
  reflexivity.
Defined.

(** ** After a successful [Persist] *)

Section Stored.
Context `{!ChainSpec} `{!SidecarSSZ}.
Implicit Types (s : Store (gmap (Z * bytes) bytes)) (slot : Z).

Lemma V1_store_each_mem_ok slot (sidecars : list BlobSidecar) s s' :
  V1.store_each slot (Some <$> sidecars) s = (s', None) →
  s' = after s (record_of slot <$> sidecars).
Proof.
  revert s. induction sidecars as [|sc sidecars IH]; intros s.
  { simpl. intros [= <-]. by rewrite after_nil. }
  rewrite !fmap_cons. cbn [V1.store_each].
  destruct (MarshalSSZ sc) as [bz|err] eqn:Hbz; [|done].
  rewrite mem_store_Set. intros Hrest%IH. rewrite after_app in Hrest.
  rewrite Hrest. unfold record_of at 2. by rewrite Hbz.
Qed.

Lemma persist_all_ok {St : Type} `{!IndexDB St} slot
    (tasks : list (nat * BlobSidecar)) (p : persisting St) :
  p_errChan (foldl (V2.persist_one slot) p tasks) = [] →
  Forall (λ t, ∃ bz, MarshalSSZ t.2 = Ok bz) tasks.
Proof.
  revert p. induction tasks as [|[i sc] tasks IH]; intros p; [constructor|].
  cbn [foldl]. intros Hquiet. constructor; [|by eapply IH].
  apply persist_all_quiet in Hquiet as [Hone _].
  unfold V2.persist_one in Hone. simpl.
  destruct (MarshalSSZ sc) as [bz|err]; [by exists bz|].
  simpl in Hone. by apply app_eq_nil in Hone as [_ ?].
Qed.

Lemma V2_Persist_success_marshal {St : Type} `{!IndexDB St}
    (sched : list nat) (s s' : Store St) slot first rest :
  WithinDAPeriod (GetSlot (Header first)) slot = true →
  V2.Persist sched s slot (Some (Some <$> first :: rest)) = Return (s', None) →
  Forall (λ sc, ∃ bz, MarshalSSZ sc = Ok bz) (first :: rest).
Proof.
  intros Hda. unfold V2.Persist. rewrite fmap_cons.
  cbv iota. rewrite Hda. cbn [negb].
  change (Some first :: (Some <$> rest)) with (Some <$> first :: rest).
  rewrite launch_all. change (imap _ (first :: rest)) with (indexed (first :: rest)).
  match goal with
  | |- context [foldl _ ?q ?ts] =>
      pose proof (persist_all_ok slot ts q) as Hok
  end.
  destruct (p_errChan (foldl _ _ _)) as [|err errs]; [|done].
  intros _. specialize (Hok eq_refl). rewrite Forall_forall in Hok.
  apply Forall_forall. intros sc Hsc.
  apply (scheduled_sidecars sched) in Hsc.
  apply list_elem_of_fmap in Hsc as ([i sc'] & -> & Hin). by apply Hok in Hin.
Qed.

Lemma stored_after_Persist (sched : list nat) s s' slot first rest :
  WithinDAPeriod (GetSlot (Header first)) slot = true →
  V1.Persist s slot (Some (Some <$> first :: rest)) = Return (s', None) ∨
  V2.Persist sched s slot (Some (Some <$> first :: rest)) = Return (s', None) →
  ∀ sc, sc ∈ first :: rest → is_Some (db s' !! (slot, commitmentKey sc)).
Proof.
  intros Hda [Hret|Hret] sc Hsc.
  - rewrite fmap_cons, V1_Persist_within in Hret by done.
    assert (V1.store_each slot (Some <$> first :: rest) s = (s', None)) as Heach
      by (rewrite fmap_cons; congruence).
    apply V1_store_each_mem_ok in Heach as ->. unfold after. cbn [db].
    destruct (apply_writes_lookup (db s) (record_of slot <$> first :: rest)
                (record_of slot sc))
      as (w' & _ & _ & _ & Hlook); [by apply list_elem_of_fmap_2|].
    change (w_slot (record_of slot sc)) with slot in Hlook.
    change (w_key (record_of slot sc)) with (commitmentKey sc) in Hlook.
    by rewrite Hlook.
  - pose proof (V2_Persist_success_marshal _ _ _ _ _ _ Hda Hret) as Hok.
    rewrite (V2_Persist_mem sched s slot first rest Hda Hok) in Hret.
    injection Hret as <-. cbn [db]. unfold apply_write at 1.
    cbn [w_slot w_key]. rewrite lookup_insert_ne.
    + destruct (apply_writes_lookup (db s)
                  (record_of slot <$> (scheduled sched (indexed (first :: rest))).*2)
                  (record_of slot sc))
        as (w' & _ & _ & _ & Hlook).
      { apply list_elem_of_fmap_2. by apply scheduled_sidecars. }
      change (w_slot (record_of slot sc)) with slot in Hlook.
      change (w_key (record_of slot sc)) with (commitmentKey sc) in Hlook.
      by rewrite Hlook.
    + intros [= Heq]. by eapply commitmentKey_not_index.
Qed.
End Stored.

(** X9: after a call of [Persist] that stored a non-empty list within the
    retention window and returned success, on the in-memory database and
    from any earlier state of it, [IsDataAvailable] holds for the
    commitments of the list, in both versions. *)
Theorem Persist_then_IsDataAvailable `{!ChainSpec} `{!SidecarSSZ}
    (sched : list nat) (s s' : Store (gmap (Z * bytes) bytes)) (slot : Z)
    (first : BlobSidecar) (rest : list BlobSidecar) :
  WithinDAPeriod (GetSlot (Header first)) slot = true →
  V1.Persist s slot (Some (Some <$> first :: rest)) = Return (s', None) ∨
  V2.Persist sched s slot (Some (Some <$> first :: rest)) = Return (s', None) →
  IsDataAvailable s' slot (KzgCommitment <$> first :: rest) = true.
Proof.
  intros Hda Hret. apply IsDataAvailable_true_iff.
  apply Forall_fmap, Forall_forall. intros sc Hsc. simpl.
  pose proof (stored_after_Persist sched s s' slot first rest Hda Hret sc Hsc)
    as Hhas.
  cbn [db_Has MemDB]. by rewrite bool_decide_eq_true_2.
Qed.

Lemma Persist_then_IsDataAvailable_witness :
  ∃ s', @V1.Persist _ MemDB (windowSpec 10) plainSSZ emptyStore 5
          (Some (Some <$> [sidecarA; sidecarB])) = Return (s', None) ∧
        @IsDataAvailable _ MemDB s' 5 (KzgCommitment <$> [sidecarA; sidecarB])
        = true.
Proof.
  eexists. split; [reflexivity|].
  apply (@Persist_then_IsDataAvailable (windowSpec 10) plainSSZ []
           emptyStore _ 5 sidecarA [sidecarB]); [reflexivity|].
  left. reflexivity.
Defined.

(** ** Failures in the sequential [Persist] *)

Lemma store_each_app {St : Type} `{!IndexDB St} `{!SidecarSSZ} (slot : Z)
    (l1 l2 : list (option BlobSidecar)) (s : Store St) :
  V1.store_each slot (l1 ++ l2) s
  = match V1.store_each slot l1 s with
    | (s1, None) => V1.store_each slot l2 s1
    | (s1, Some err) => (s1, Some err)
    end.
Proof.
  revert s. induction l1 as [|[sc|] l1 IH]; intros s; simpl; [done| |done].
  destruct (MarshalSSZ sc) as [bz|err]; [|done].
  by destruct (store_Set s slot _ bz) as [s1 [err|]].
Qed.

(** X10: the first version of [Persist] stops at the first sidecar that
    fails and undoes nothing.  When the sidecars before it have been
    stored, a sidecar that cannot be serialized ends the call with the
    error of the codec, and a write that the database refuses ends it with
    the error of the database; the records written before stay, and no
    later sidecar is written. *)
Theorem V1_Persist_stops_at_first_failure
    {St : Type} `{!IndexDB St} `{!ChainSpec} `{!SidecarSSZ}
    (s s1 : Store St) (slot : Z) (first : BlobSidecar)
    (before : list BlobSidecar) (sc : BlobSidecar)
    (rest : list (option BlobSidecar)) (err : error) :
  WithinDAPeriod (GetSlot (Header first)) slot = true →
  V1.Persist s slot (Some (Some <$> first :: before)) = Return (s1, None) →
  (MarshalSSZ sc = Err err →
   V1.Persist s slot (Some ((Some <$> first :: before) ++ Some sc :: rest))
   = Return (s1, Some err)) ∧
  (∀ bz d, MarshalSSZ sc = Ok bz →
     db_Set (db s1) slot (commitmentKey sc) bz = (d, Some err) →
     V1.Persist s slot (Some ((Some <$> first :: before) ++ Some sc :: rest))
     = Return (mkStore d (issued s1 ++ [mkWrite slot (commitmentKey sc) bz]),
               Some err)).
Proof.
  intros Hda Hbefore. rewrite fmap_cons in *.
  change ((?x :: ?l) ++ ?k) with (x :: (l ++ k)).
  rewrite V1_Persist_within in * by done.
  assert (V1.store_each slot (Some first :: (Some <$> before)) s = (s1, None))
    as Heach by congruence.
  change (Some first :: (Some <$> before) ++ Some sc :: rest)
    with ((Some first :: (Some <$> before)) ++ Some sc :: rest).
  rewrite store_each_app, Heach. cbn [V1.store_each]. split.
  - by intros ->.
  - intros bz d -> Hset. unfold store_Set. by rewrite Hset.
Qed.

Lemma V1_Persist_stops_at_first_failure_witness :
  ∃ s1, @V1.Persist _ MemDB (windowSpec 10) strictSSZ emptyStore 5
          (Some (Some <$> [sidecarA])) = Return (s1, None) ∧
        @V1.Persist _ MemDB (windowSpec 10) strictSSZ emptyStore 5
          (Some ((Some <$> [sidecarA]) ++ Some sidecarEmpty :: [Some sidecarB]))
        = Return (s1, Some (ErrSSZ 3)).
Proof.
  eexists. split; [reflexivity|].
  apply (@V1_Persist_stops_at_first_failure _ MemDB (windowSpec 10) strictSSZ
           emptyStore _ 5 sidecarA [] sidecarEmpty [Some sidecarB] (ErrSSZ 3));
    reflexivity.
Defined.

(** ** The readers of [GetBlobsFromStore] *)

Section Readers.
Context {St : Type} `{!IndexDB St} `{!SidecarSSZ}.

Lemma fetch_one_errChan (s : Store St) (slot : Z) (f : fetching)
    (task : nat * bytes) :
  (f_errChan f ≠ [] → f_errChan (fetch_one s slot f task) ≠ []) ∧
  (fetched s slot task.2 = None → f_errChan (fetch_one s slot f task) ≠ []).
Proof.
  destruct task as [i c]. unfold fetch_one, fetched. simpl.
  destruct (db_Get (db s) slot c) as [bz|err]; simpl.
  - destruct (UnmarshalSSZ (data bz)) as [sc|err]; simpl.
    + split; [done|discriminate].
    + split; intros _; by intros [_ ?]%app_eq_nil.
  - split; intros _; by intros [_ ?]%app_eq_nil.
Qed.

Lemma fetch_each_errChan_grows (s : Store St) (slot : Z)
    (tasks : list (nat * bytes)) (f : fetching) :
  f_errChan f ≠ [] → f_errChan (foldl (fetch_one s slot) f tasks) ≠ [].
Proof.
  revert f. induction tasks as [|t tasks IH]; intros f Hf; [done|].
  cbn [foldl]. apply IH. by apply (proj1 (fetch_one_errChan s slot f t)).
Qed.

Lemma fetch_each_missing (s : Store St) (slot : Z)
    (tasks : list (nat * bytes)) (f : fetching) :
  Exists (λ t, fetched s slot t.2 = None) tasks →
  f_errChan (foldl (fetch_one s slot) f tasks) ≠ [].
Proof.
  intros Hex. revert f. induction Hex as [t tasks Ht|t tasks _ IH]; intros f.
  - cbn [foldl]. apply fetch_each_errChan_grows.
    by apply (proj2 (fetch_one_errChan s slot f t)).
  - cbn [foldl]. apply IH.
Qed.

Lemma fetch_all_missing (sched : list nat) (s : Store St) (slot : Z)
    (commitments : list bytes) :
  Exists (λ c, fetched s slot c = None) commitments →
  ∃ err, fetch_all sched s slot commitments = Err err.
Proof.
  intros Hex. unfold fetch_all.
  match goal with
  | |- context [foldl _ ?f ?ts] =>
      pose proof (fetch_each_missing s slot ts f) as Herr
  end.
  destruct (f_errChan (foldl _ _ _)) as [|err errs]; [|by exists err].
  exfalso. apply Herr; [|done].
  apply Exists_exists in Hex as (c & Hc & Hnone).
  apply Exists_exists.
  apply list_elem_of_lookup in Hc as [i Hi]. exists (i, c). split; [|done].
  rewrite scheduled_Permutation. by apply indexed_lookup.
Qed.

Lemma fetch_all_Ok_iff (sched : list nat) (s : Store St) (slot : Z)
    (commitments : list bytes) (out : list (option BlobSidecar)) :
  fetch_all sched s slot commitments = Ok out ↔
  Forall (λ c, is_Some (fetched s slot c)) commitments ∧
  out = fetched s slot <$> commitments.
Proof.
  split.
  - intros Hok.
    destruct (decide (Forall (λ c, is_Some (fetched s slot c)) commitments))
      as [Hall|Hnot].
    + split; [done|]. rewrite fetch_all_found in Hok by done. congruence.
    + apply not_Forall_Exists in Hnot; [|apply _].
      destruct (fetch_all_missing sched s slot commitments) as [err Herr];
        [|congruence].
      eapply Exists_impl; [exact Hnot|]. intros c Hc.
      by apply eq_None_not_Some.
  - intros [Hall ->]. by apply fetch_all_found.
Qed.

Lemma fetch_all_any_schedule (sched sched' : list nat) (s : Store St)
    (slot : Z) (commitments : list bytes) out :
  fetch_all sched s slot commitments = Ok out →
  fetch_all sched' s slot commitments = Ok out ∧ Forall is_Some out.
Proof.
  intros [Hall ->]%fetch_all_Ok_iff. split.
  - by apply fetch_all_Ok_iff.
  - by apply Forall_fmap.
Qed.
End Readers.

(** X11: retrieval is all or nothing.  Once the index record of the slot
    has been read and decoded, the second version of [GetBlobsFromStore]
    returns one sidecar for every commitment of the index, in the order of
    the index, when the record of each can be read and decoded; when one
    cannot, it returns an error and no sidecar at all.  The order of the
    readers changes neither. *)
Theorem GetBlobsFromStore_all_or_nothing
    {St : Type} `{!IndexDB St} `{!SidecarSSZ}
    (sched : list nat) (s : Store St) (slot : Z) (record : slice)
    (commitments : list bytes) :
  db_Get (db s) slot SlotCommitmentsKey = Ok record →
  deserializeCommitments record = Return commitments →
  (Forall (λ c, is_Some (fetched s slot c)) commitments →
   V2.GetBlobsFromStore sched s slot
   = Return (Ok (fetched s slot <$> commitments))) ∧
  (Exists (λ c, fetched s slot c = None) commitments →
   ∃ err, V2.GetBlobsFromStore sched s slot = Return (Err err)).
Proof.
  intros Hget Hdec. unfold V2.GetBlobsFromStore. rewrite Hget, Hdec.
  cbn [mbind outcome_bind]. split.
  - intros Hall. by rewrite fetch_all_found.
  - intros Hex. destruct (fetch_all_missing sched s slot commitments Hex)
      as [err ->]. by exists err.
Qed.

Lemma GetBlobsFromStore_all_or_nothing_witness :
  let s := after emptyStore
             [record_of (H := plainSSZ) 5 sidecarA;
              mkWrite 5 SlotCommitmentsKey
                (serializeCommitments [commitmentKey sidecarA;
                                       commitmentKey sidecarB])] in
  ∃ err, @V2.GetBlobsFromStore _ MemDB plainSSZ [] s 5 = Return (Err err).
Proof.
  intros s.
  eapply (@GetBlobsFromStore_all_or_nothing _ MemDB plainSSZ [] s 5);
    [reflexivity|reflexivity|].
  apply Exists_cons_tl, Exists_cons_hd. reflexivity.
Defined.

(** X12: whether [GetBlobsFromStore] succeeds, what it returns when it
    does, and whether it panics, do not depend on the order in which the
    reader goroutines run; a collection it returns has no nil entry. *)
Theorem GetBlobsFromStore_any_schedule
    {St : Type} `{!IndexDB St} `{!SidecarSSZ} `{!SlotCommitmentsSSZ}
    (sched sched' : list nat) (s : Store St) (slot : Z) :
  (∀ out, V1.GetBlobsFromStore sched s slot = Ok out →
          V1.GetBlobsFromStore sched' s slot = Ok out ∧ Forall is_Some out) ∧
  (∀ out, V2.GetBlobsFromStore sched s slot = Return (Ok out) →
          V2.GetBlobsFromStore sched' s slot = Return (Ok out) ∧
          Forall is_Some out) ∧
  (∀ msg, V2.GetBlobsFromStore sched s slot = Panic msg →
          V2.GetBlobsFromStore sched' s slot = Panic msg).
Proof.
  unfold V1.GetBlobsFromStore, V2.GetBlobsFromStore.
  destruct (db_Get (db s) slot SlotCommitmentsKey) as [record|err].
  - split; [|split].
    + intros out.
      destruct (SlotCommitments_UnmarshalSSZ (data record)) as [cs|err];
        [|done].
      apply fetch_all_any_schedule.
    + intros out. destruct (deserializeCommitments record) as [cs|msg];
        cbn [mbind outcome_bind]; [|done].
      intros [= Hok]. apply (fetch_all_any_schedule _ sched') in Hok as [-> ?].
      done.
    + intros msg. by destruct (deserializeCommitments record).
  - split; [|split]; [intros out [= <-]; by split..|done].
Qed.

Lemma GetBlobsFromStore_any_schedule_witness :
  let s := after emptyStore
             [record_of (H := plainSSZ) 5 sidecarB;
              record_of (H := plainSSZ) 5 sidecarA;
              mkWrite 5 SlotCommitmentsKey
                (serializeCommitments [commitmentKey sidecarA;
                                       commitmentKey sidecarB])] in
  @V2.GetBlobsFromStore _ MemDB plainSSZ [1%nat] s 5
    = Return (Ok [Some sidecarA; Some sidecarB]) ∧
  Forall is_Some [Some sidecarA; Some sidecarB].
Proof.
  intros s.
  apply (proj1 (proj2 (@GetBlobsFromStore_any_schedule _ MemDB plainSSZ
                         rejectingSSZ [] [1%nat] s 5))).
  reflexivity.
Defined.

(** ** Persisting over earlier records *)

Section Over.
Context `{!ChainSpec} `{!SidecarSSZ}.

Lemma V2_roundtrip_distinct (sched sched' : list nat)
    (s : Store (gmap (Z * bytes) bytes)) (slot : Z)
    (first : BlobSidecar) (rest : list BlobSidecar) :
  (length (first :: rest) < 256)%nat →
  WithinDAPeriod (GetSlot (Header first)) slot = true →
  Forall (λ sc, ∃ bz, MarshalSSZ sc = Ok bz ∧ UnmarshalSSZ bz = Ok sc)
         (first :: rest) →
  NoDup (KzgCommitment <$> first :: rest) →
  ∃ s', V2.Persist sched s slot (Some (Some <$> first :: rest))
          = Return (s', None) ∧
        V2.GetBlobsFromStore sched' s' slot
          = Return (Ok (Some <$> first :: rest)).
Proof.
  intros Hlen Hda Hcodec Hnd.
  set (sidecars := first :: rest) in *.
  assert (Forall (λ sc, ∃ bz, MarshalSSZ sc = Ok bz) sidecars) as Hok.
  { eapply Forall_impl; [exact Hcodec|]. intros sc (bz & ? & _). by exists bz. }
  pose proof (V2_Persist_mem sched s slot first rest Hda Hok) as Hpersist.
  cbv zeta in Hpersist. fold sidecars in Hpersist.
  match type of Hpersist with
  | _ = Return (?st, None) => set (s' := st) in *
  end.
  exists s'. split; [exact Hpersist|].
  assert (∀ sc, sc ∈ sidecars →
                fetched s' slot (commitmentKey sc) = Some sc) as Hback.
  { intros sc Hsc.
    destruct (fetched_after_Persist sched slot sidecars s
                (mkWrite slot SlotCommitmentsKey
                   (serializeCommitments ((λ sc, commitmentKey sc) <$> sidecars)))
                (issued s') sc Hcodec eq_refl Hsc)
      as (sc' & Hin & Hcomm & Hsc').
    etransitivity; [exact Hsc'|]. f_equal.
    by apply (NoDup_fmap_elem_inj KzgCommitment sidecars). }
  unfold V2.GetBlobsFromStore. cbn [db_Get MemDB].
  unfold s' at 1. cbn [db]. unfold apply_write at 1. cbn [w_slot w_key w_value].
  rewrite lookup_insert_eq. unfold exact.
  rewrite deserialize_serialize.
  - cbn [mbind outcome_bind]. rewrite fetch_all_found.
    + do 2 f_equal. rewrite <- list_fmap_compose.
      apply Forall_fmap_ext_1, Forall_forall. intros sc Hsc. simpl.
      by apply Hback.
    + apply Forall_fmap, Forall_forall. intros sc Hsc. simpl.
      by rewrite Hback.
  - by rewrite length_fmap.
  - apply Forall_fmap, Forall_forall. intros sc _. simpl.
    apply length_vec_to_list.
Qed.
End Over.

(** X13: [Persist] with the index write replaces what the database held
    for the slot.  From any state of the in-memory database, persisting up
    to 255 sidecars with pairwise distinct commitments and then reading
    the slot returns exactly these sidecars, in input order, whatever
    index record and sidecar records were there before and whatever the
    orders of the goroutines. *)
Theorem Persist_GetBlobsFromStore_over_existing `{!ChainSpec} `{!SidecarSSZ}
    (sched sched' : list nat) (s : Store (gmap (Z * bytes) bytes)) (slot : Z)
    (first : BlobSidecar) (rest : list BlobSidecar) :
  (length (first :: rest) < 256)%nat →
  WithinDAPeriod (GetSlot (Header first)) slot = true →
  Forall (λ sc, ∃ bz, MarshalSSZ sc = Ok bz ∧ UnmarshalSSZ bz = Ok sc)
         (first :: rest) →
  NoDup (KzgCommitment <$> first :: rest) →
  ∃ s', V2.Persist sched s slot (Some (Some <$> first :: rest))
          = Return (s', None) ∧
        V2.GetBlobsFromStore sched' s' slot
          = Return (Ok (Some <$> first :: rest)).
Proof. apply V2_roundtrip_distinct. Qed.

Lemma Persist_GetBlobsFromStore_over_existing_witness :
  let s := after emptyStore
             [record_of (H := plainSSZ) 5 sidecarA';
              mkWrite 5 SlotCommitmentsKey
                (serializeCommitments [commitmentKey sidecarA'])] in
  ∃ s', @V2.Persist _ MemDB (windowSpec 10) plainSSZ [1%nat] s 5
          (Some (Some <$> [sidecarA; sidecarB])) = Return (s', None) ∧
        @V2.GetBlobsFromStore _ MemDB plainSSZ [] s' 5
          = Return (Ok (Some <$> [sidecarA; sidecarB])).
Proof.
  intros s.
  apply (@Persist_GetBlobsFromStore_over_existing (windowSpec 10) plainSSZ
           [1%nat] [] s 5 sidecarA [sidecarB]).
  - simpl. lia.
  - reflexivity.
  - repeat constructor; eexists; split; reflexivity.
  - apply NoDup_cons. split; [|apply NoDup_singleton].
    intros Hin%list_elem_of_singleton. vm_compute in Hin. discriminate.
Defined.

(** ** The node API backend *)

Section API.
Context {St : Type} `{!IndexDB St} `{!SidecarSSZ} `{!TextForms}.

Lemma sidecarData_entry_of (sc : BlobSidecar) entry :
  sidecarData sc = Ok entry ↔ entry_of sc entry.
Proof.
  unfold sidecarData, entry_of. split.
  - destruct (Blob_MarshalText (Blob sc)) as [blobHex|]; [|done].
    destruct (KZGCommitment_MarshalText (KzgCommitment sc)) as [commHex|];
      [|done].
    destruct (KZGProof_MarshalText (KzgProof sc)) as [proofHex|]; [|done].
    by intros [= <-].
  - destruct entry as [i b c p ip]. simpl.
    by intros (-> & -> & -> & -> & ->).
Qed.

Lemma sidecarsData_Ok (blobSidecars : list (option BlobSidecar)) entries :
  sidecarsData blobSidecars = Return (Ok entries) →
  ∃ sidecars, blobSidecars = Some <$> sidecars ∧
              Forall2 entry_of sidecars entries.
Proof.
  revert entries. induction blobSidecars as [|[sc|] rest IH]; intros entries.
  - intros [= <-]. exists []. split; [done|constructor].
  - cbn [sidecarsData].
    destruct (sidecarData sc) as [entry|err] eqn:Hentry; [|done].
    destruct (sidecarsData rest) as [[entries'|err]|msg];
      cbn [mbind outcome_bind]; [|done..].
    intros [= <-]. destruct (IH _ eq_refl) as (sidecars & -> & Hall).
    exists (sc :: sidecars). split; [done|].
    constructor; [by apply sidecarData_entry_of|done].
  - done.
Qed.

Lemma sidecarsData_all (sidecars : list BlobSidecar) entries :
  Forall2 entry_of sidecars entries →
  sidecarsData (Some <$> sidecars) = Return (Ok entries).
Proof.
  induction 1 as [|sc entry sidecars entries Hentry _ IH]; [done|].
  rewrite fmap_cons. cbn [sidecarsData].
  apply sidecarData_entry_of in Hentry. by rewrite Hentry, IH.
Qed.

Lemma sidecarsData_no_panic (blobSidecars : list (option BlobSidecar)) msg :
  Forall is_Some blobSidecars → sidecarsData blobSidecars ≠ Panic msg.
Proof.
  induction 1 as [|o rest [sc ->] _ IH]; [done|].
  cbn [sidecarsData]. destruct (sidecarData sc) as [entry|err]; [|done].
  by destruct (sidecarsData rest) as [[entries'|err]|msg'].
Qed.

Lemma V2_GetBlobsFromStore_no_nil (sched : list nat) (s : Store St) (slot : Z)
    out :
  V2.GetBlobsFromStore sched s slot = Return (Ok out) → Forall is_Some out.
Proof.
  unfold V2.GetBlobsFromStore.
  destruct (db_Get (db s) slot SlotCommitmentsKey) as [record|err].
  - destruct (deserializeCommitments record) as [cs|msg];
      cbn [mbind outcome_bind]; [|done].
    intros [= Hok]. by apply (fetch_all_any_schedule _ sched) in Hok as [_ ?].
  - intros [= <-]. constructor.
Qed.
End API.

(** X14: when the read of the index key fails, [BlobSidecarsAtSlot]
    answers with an empty list and no error: the API cannot tell a slot
    without blobs from a database that did not answer. *)
Theorem BlobSidecarsAtSlot_unreadable_index
    {St : Type} `{!IndexDB St} `{!SidecarSSZ} `{!TextForms}
    (sched : list nat) (s : Store St) (slot : Z) (err : error) :
  db_Get (db s) slot SlotCommitmentsKey = Err err →
  BlobSidecarsAtSlot sched s slot = Return (Ok []).
Proof.
  intros Hget. unfold BlobSidecarsAtSlot, V2.GetBlobsFromStore.
  by rewrite Hget.
Qed.

Lemma BlobSidecarsAtSlot_unreadable_index_witness :
  @BlobSidecarsAtSlot _ FaultyDB plainSSZ hexText [] (mkStore () []) 7
  = Return (Ok []).
Proof.
  apply (@BlobSidecarsAtSlot_unreadable_index _ FaultyDB plainSSZ hexText
           [] (mkStore () []) 7 (ErrIO 5)).
  reflexivity.
Defined.

(** X15: a list that [BlobSidecarsAtSlot] returns has one entry for each
    sidecar that [GetBlobsFromStore] returned, in the same order; the entry
    carries the index of the sidecar, the text forms of its blob,
    commitment and proof, and those of the roots of its inclusion
    proof. *)
Theorem BlobSidecarsAtSlot_entries
    {St : Type} `{!IndexDB St} `{!SidecarSSZ} `{!TextForms}
    (sched : list nat) (s : Store St) (slot : Z)
    (entries : list beacontypes.BlobSidecarData) :
  BlobSidecarsAtSlot sched s slot = Return (Ok entries) →
  ∃ sidecars, V2.GetBlobsFromStore sched s slot = Return (Ok (Some <$> sidecars)) ∧
              Forall2 entry_of sidecars entries.
Proof.
  unfold BlobSidecarsAtSlot.
  destruct (V2.GetBlobsFromStore sched s slot) as [[out|err]|msg];
    cbn [mbind outcome_bind]; [|done..].
  intros (sidecars & -> & Hall)%sidecarsData_Ok. by exists sidecars.
Qed.

Lemma BlobSidecarsAtSlot_entries_witness :
  let s := after emptyStore
             [record_of (H := plainSSZ) 5 sidecarA;
              mkWrite 5 SlotCommitmentsKey
                (serializeCommitments [commitmentKey sidecarA])] in
  ∃ sidecars,
    @V2.GetBlobsFromStore _ MemDB plainSSZ [] s 5
      = Return (Ok (Some <$> sidecars)) ∧
    Forall2 (entry_of (H := hexText)) sidecars
      [ {| beacontypes.Index := 0;
           beacontypes.Blob := hex [x0a];
           beacontypes.KZGCommitment := hex (commitmentKey sidecarA);
           beacontypes.KZGProof := hex [];
           beacontypes.KZGCommitmentInclusionProof := [] |} ].
Proof.
  intros s.
  apply (@BlobSidecarsAtSlot_entries _ MemDB plainSSZ hexText [] s 5).
  reflexivity.
Defined.

(** X16: [BlobSidecarsAtSlot] dereferences every entry of the collection
    it gets, and never a nil one: it panics only when [GetBlobsFromStore]
    itself panics. *)
Theorem BlobSidecarsAtSlot_no_nil_dereference
    {St : Type} `{!IndexDB St} `{!SidecarSSZ} `{!TextForms}
    (sched : list nat) (s : Store St) (slot : Z) (msg : string) :
  BlobSidecarsAtSlot sched s slot = Panic msg →
  V2.GetBlobsFromStore sched s slot = Panic msg.
Proof.
  unfold BlobSidecarsAtSlot.
  destruct (V2.GetBlobsFromStore sched s slot) as [[out|err]|msg'] eqn:Hget;
    cbn [mbind outcome_bind]; [|discriminate|by intros [= ->]].
  intros Hpanic. exfalso.
  by apply (sidecarsData_no_panic out msg (V2_GetBlobsFromStore_no_nil _ _ _ _ Hget)).
Qed.

Lemma BlobSidecarsAtSlot_no_nil_dereference_witness :
  @V2.GetBlobsFromStore _ MemDB plainSSZ []
    (after emptyStore [mkWrite 5 SlotCommitmentsKey []]) 5
  = Panic "index out of range".
Proof.
  apply (@BlobSidecarsAtSlot_no_nil_dereference _ MemDB plainSSZ hexText []
           (after emptyStore [mkWrite 5 SlotCommitmentsKey []]) 5).
  reflexivity.
Defined.

(** X17: from [Persist] to the API.  After the second version of
    [Persist] has stored up to 255 sidecars with pairwise distinct
    commitments in the in-memory database, [BlobSidecarsAtSlot] for the
    slot returns one entry for each of them, in input order, when the
    text forms of each can be made. *)
Theorem Persist_then_BlobSidecarsAtSlot
    `{!ChainSpec} `{!SidecarSSZ} `{!TextForms}
    (sched sched' : list nat) (s : Store (gmap (Z * bytes) bytes)) (slot : Z)
    (first : BlobSidecar) (rest : list BlobSidecar)
    (entries : list beacontypes.BlobSidecarData) :
  (length (first :: rest) < 256)%nat →
  WithinDAPeriod (GetSlot (Header first)) slot = true →
  Forall (λ sc, ∃ bz, MarshalSSZ sc = Ok bz ∧ UnmarshalSSZ bz = Ok sc)
         (first :: rest) →
  NoDup (KzgCommitment <$> first :: rest) →
  Forall2 entry_of (first :: rest) entries →
  ∃ s', V2.Persist sched s slot (Some (Some <$> first :: rest))
          = Return (s', None) ∧
        BlobSidecarsAtSlot sched' s' slot = Return (Ok entries).
Proof.
  intros Hlen Hda Hcodec Hnd Hentries.
  destruct (V2_roundtrip_distinct sched sched' s slot first rest
              Hlen Hda Hcodec Hnd) as (s' & Hpersist & Hget).
  exists s'. split; [done|]. unfold BlobSidecarsAtSlot. rewrite Hget.
  cbn [mbind outcome_bind]. by apply sidecarsData_all.
Qed.

Lemma Persist_then_BlobSidecarsAtSlot_witness :
  ∃ s', @V2.Persist _ MemDB (windowSpec 10) plainSSZ [1%nat] emptyStore 5
          (Some (Some <$> [sidecarA; sidecarB])) = Return (s', None) ∧
        @BlobSidecarsAtSlot _ MemDB plainSSZ hexText [] s' 5
        = Return (Ok [ {| beacontypes.Index := 0;
                          beacontypes.Blob := hex [x0a];
                          beacontypes.KZGCommitment := hex (commitmentKey sidecarA);
                          beacontypes.KZGProof := hex [];
                          beacontypes.KZGCommitmentInclusionProof := [] |};
                       {| beacontypes.Index := 0;
                          beacontypes.Blob := hex [x0b];
                          beacontypes.KZGCommitment := hex (commitmentKey sidecarB);
                          beacontypes.KZGProof := hex [];
                          beacontypes.KZGCommitmentInclusionProof := [] |} ]).
Proof.
  apply (@Persist_then_BlobSidecarsAtSlot (windowSpec 10) plainSSZ hexText
           [1%nat] [] emptyStore 5 sidecarA [sidecarB]).
  - simpl. lia.
  - reflexivity.
  - repeat constructor; eexists; split; reflexivity.
  - apply NoDup_cons. split; [|apply NoDup_singleton].
    intros Hin%list_elem_of_singleton. vm_compute in Hin. discriminate.
  - repeat constructor.
Defined.

(** ** The handler of the blob sidecars route *)

(** X18: [GetBlobSidecars] returns an error exactly when the binding of
    the request fails or the resolution of its block id against the
    backend fails, and the error is that one, unchanged.  Otherwise it
    answers with the same single sample entry whatever the request, the
    backend and the slot that the block id resolved to: index 0, the four
    zero digits after [0x] for blob, commitment and proof, and seventeen
    empty strings for the inclusion proof.  The backend serves to resolve
    the slot and nothing of it reaches the response. *)
Theorem GetBlobSidecars_sample_response
    {ContextT Request LoggerT BackendT : Type}
    (BindAndValidate : ContextT → LoggerT → result Request)
    (BlockID : Request → string)
    (SlotFromBlockID : string → BackendT → result Z)
    (h : Handler LoggerT BackendT) (c : ContextT) :
  (∀ err,
     GetBlobSidecars BindAndValidate BlockID SlotFromBlockID h c = Err err ↔
     BindAndValidate c (Logger h) = Err err ∨
     ∃ req, BindAndValidate c (Logger h) = Ok req ∧
            SlotFromBlockID (BlockID req) (backend h) = Err err) ∧
  (∀ response,
     GetBlobSidecars BindAndValidate BlockID SlotFromBlockID h c = Ok response ↔
     (∃ req slot, BindAndValidate c (Logger h) = Ok req ∧
                  SlotFromBlockID (BlockID req) (backend h) = Ok slot) ∧
     response = [ {| beacontypes.Index := 0;
                     beacontypes.Blob := "0x0000";
                     beacontypes.KZGCommitment := "0x0000";
                     beacontypes.KZGProof := "0x0000";
                     beacontypes.KZGCommitmentInclusionProof :=
                       replicate 17 EmptyString |} ]).
Proof.
  unfold GetBlobSidecars.
  destruct (BindAndValidate c (Logger h)) as [req|bindErr].
  - destruct (SlotFromBlockID (BlockID req) (backend h)) as [slot|slotErr]
      eqn:Hslot.
    + split; [intros err|intros response]; split.
      * done.
      * intros [?|(req' & [= <-] & Herr)]; [done|]. congruence.
      * intros [= <-]. split; [|done]. by exists req, slot.
      * by intros [_ ->].
    + split; [intros err|intros response]; split.
      * intros [= <-]. right. by exists req.
      * intros [?|(req' & [= <-] & Herr)]; [done|]. congruence.
      * done.
      * intros [(req' & slot & [= <-] & Hok) _]. congruence.
  - split; [intros err|intros response]; split.
    + intros [= <-]. by left.
    + intros [[= <-]|(req & ? & _)]; done.
    + done.
    + by intros [(req & slot & ? & _) _].
Qed.

(** ** Fork versions *)

Lemma byte_of_Z_inj (a b : Z) :
  byte_of_Z a = byte_of_Z b → a mod 256 = b mod 256.
Proof.
  unfold byte_of_Z. intros Heq. apply (f_equal int_of_byte) in Heq.
  pose proof (Z.mod_pos_bound a 256 ltac:(lia)).
  pose proof (Z.mod_pos_bound b 256 ltac:(lia)).
  rewrite !int_of_byte_of_nat in Heq by lia. lia.
Qed.

(** X19: a fork version holds its number in little-endian order in its
    first four bytes, so for an array type of at least four bytes two
    different 32-bit numbers never give the same version. *)
Theorem VersionFromUint32_injective (VersionLength : nat) (v w : Z) :
  (4 ≤ VersionLength)%nat →
  0 ≤ v < 2 ^ 32 → 0 ≤ w < 2 ^ 32 →
  VersionFromUint32 VersionLength v = VersionFromUint32 VersionLength w →
  v = w.
Proof.
  intros Hlen Hv Hw. unfold VersionFromUint32, PutUint32.
  rewrite length_replicate. rewrite decide_False by lia.
  do 4 (destruct VersionLength as [|VersionLength]; [lia|]).
  cbn [replicate insert list_insert]. intros [= H0 H1 H2 H3].
  apply byte_of_Z_inj in H0, H1, H2, H3.
  rewrite !Z.shiftr_div_pow2 in * by lia.
  change (2 ^ 8) with 256 in *. change (2 ^ 16) with 65536 in *.
  change (2 ^ 24) with 16777216 in *. change (2 ^ 32) with 4294967296 in *.
  Z.div_mod_to_equations. lia.
Qed.

Lemma VersionFromUint32_injective_witness : 258 = 258.
Proof.
  apply (VersionFromUint32_injective 4 258 258); [lia|lia|lia|reflexivity].
Defined.

(** ** The node command *)

(** X20: whenever [main] calls [run], it passes a nil chain spec input:
    the value parsed from the chain spec file is stored in a variable of
    the [if] block and never reaches [run]. *)
Theorem main_passes_no_chain_spec {ChainSpecInput Cmd : Type}
    (maxprocs_Set : option error)
    (Build : option ChainSpecInput → result Cmd) (Run : Cmd → option error)
    (ReadFile : string → result bytes)
    (json_Unmarshal : bytes → result ChainSpecInput)
    (chainSpecPath specType : string) (chainSpec : option ChainSpecInput) :
  beacond.Runs chainSpec
    ∈ beacond.main maxprocs_Set Build Run ReadFile json_Unmarshal
        chainSpecPath specType →
  chainSpec = None.
Proof.
  assert (beacond.Runs chainSpec
            ∈ beacond.startup maxprocs_Set Build Run None →
          chainSpec = None) as Hstartup.
  { unfold beacond.startup.
    destruct (beacond.run _ _ _ _); intros Hin.
    - apply elem_of_cons in Hin as [[= ->]|Hin]; [done|].
      apply elem_of_cons in Hin as [?|Hin]; [done|].
      by apply list_elem_of_singleton in Hin.
    - by apply list_elem_of_singleton in Hin as [= ->]. }
  unfold beacond.main.
  destruct (String.eqb chainSpecPath "" && String.eqb specType "").
  { intros Hin. apply elem_of_cons in Hin as [?|Hin]; [done|].
    by apply list_elem_of_singleton in Hin. }
  destruct (negb (String.eqb chainSpecPath "")); [|by apply Hstartup].
  destruct (ReadFile chainSpecPath) as [b|err].
  - destruct (json_Unmarshal b) as [parsed|err]; intros Hin.
    + apply elem_of_cons in Hin as [?|Hin]; [done|]. by apply Hstartup.
    + apply elem_of_cons in Hin as [?|Hin]; [done|].
      apply elem_of_cons in Hin as [?|Hin]; [done|].
      by apply list_elem_of_singleton in Hin.
  - intros Hin. apply elem_of_cons in Hin as [?|Hin]; [done|].
    apply elem_of_cons in Hin as [?|Hin]; [done|].
    by apply list_elem_of_singleton in Hin.
Qed.

Lemma main_passes_no_chain_spec_witness :
  @beacond.main nat unit None (λ _, Ok ()) (λ _, None)
    (λ _, Ok [x01]) (λ _, Ok 7%nat) "spec.json" ""
  = [beacond.ReadsFile "spec.json"; beacond.Runs None] ∧
  @None nat = None.
Proof.
  split; [reflexivity|].
  apply (@main_passes_no_chain_spec nat unit None (λ _, Ok ()) (λ _, None)
           (λ _, Ok [x01]) (λ _, Ok 7%nat) "spec.json" "" None).
  right. left.
Defined.

(** ** The writes of a successful [Persist] *)

Section Successful.
Context {St : Type} `{!IndexDB St} `{!ChainSpec} `{!SidecarSSZ}.

Lemma store_each_ok_written (slot : Z) (sidecars : list BlobSidecar)
    (s s' : Store St) :
  V1.store_each slot (Some <$> sidecars) s = (s', None) →
  written_since s s' (record_of slot <$> sidecars).
Proof.
  revert s. induction sidecars as [|sc sidecars IH]; intros s.
  { simpl. intros [= <-]. apply written_since_refl. }
  rewrite !fmap_cons. cbn [V1.store_each].
  destruct (MarshalSSZ sc) as [bz|err] eqn:Hbz; [|done].
  pose proof (store_Set_written s slot (commitmentKey sc) bz) as Hset.
  destruct (store_Set s slot _ bz) as [s1 [err|]]; [done|]. simpl in Hset.
  intros Hrest%IH.
  assert (record_of slot sc = mkWrite slot (commitmentKey sc) bz) as ->
    by (unfold record_of; by rewrite Hbz).
  by apply (written_since_trans _ _ _ [_] _ Hset).
Qed.

Lemma persist_all_issued (slot : Z) (tasks : list (nat * BlobSidecar))
    (p : persisting St) :
  Forall (λ t, ∃ bz, MarshalSSZ t.2 = Ok bz) tasks →
  written_since (p_store p) (p_store (foldl (V2.persist_one slot) p tasks))
    (record_of slot <$> tasks.*2).
Proof.
  intros Hok. revert p.
  induction Hok as [|[i sc] tasks [bz Hbz] _ IH]; intros p.
  { apply written_since_refl. }
  cbn [foldl]. rewrite !fmap_cons. simpl in Hbz.
  assert (record_of slot sc = mkWrite slot (commitmentKey sc) bz) as Hrec
    by (unfold record_of; by rewrite Hbz).
  pose proof (store_Set_written (p_store p) slot (commitmentKey sc) bz) as Hset.
  unfold V2.persist_one at 2. rewrite Hbz. cbn [snd]. rewrite Hrec.
  destruct (store_Set (p_store p) slot _ bz) as [s1 [err|]]; simpl in Hset.
  all: match goal with
       | |- context [foldl _ ?q _] => specialize (IH q)
       end.
  all: by apply (written_since_trans _ _ _ [_] _ Hset).
Qed.
End Successful.

Lemma indexed_snd {A : Type} (xs : list A) : (indexed xs).*2 = xs.
Proof.
  unfold indexed. rewrite fmap_imap.
  rewrite (imap_ext _ (const id)) by done.
  by rewrite imap_const, list_fmap_id.
Qed.

(** X21: a call of the first version of [Persist] that stores a list
    within the retention window and returns success has made exactly one
    [Set] call for each sidecar, in input order, each under the commitment
    of the sidecar and with its serialization as value, and no other, on
    any database. *)
Theorem V1_Persist_success_writes
    {St : Type} `{!IndexDB St} `{!ChainSpec} `{!SidecarSSZ}
    (s s' : Store St) (slot : Z) (first : BlobSidecar)
    (rest : list BlobSidecar) :
  WithinDAPeriod (GetSlot (Header first)) slot = true →
  V1.Persist s slot (Some (Some <$> first :: rest)) = Return (s', None) →
  written_since s s' (record_of slot <$> first :: rest) ∧
  Forall (λ sc, ∃ bz, MarshalSSZ sc = Ok bz ∧
                      w_value (record_of slot sc) = bz) (first :: rest).
Proof.
  intros Hda Hret. rewrite fmap_cons, V1_Persist_within in Hret by done.
  assert (V1.store_each slot (Some <$> first :: rest) s = (s', None)) as Heach
    by (rewrite fmap_cons; congruence).
  split; [by apply store_each_ok_written|].
  clear Hret. revert s Heach.
  generalize (first :: rest). intros l.
  induction l as [|sc l IH]; intros s; [constructor|].
  rewrite fmap_cons. cbn [V1.store_each].
  destruct (MarshalSSZ sc) as [bz|err] eqn:Hbz; [|done].
  destruct (store_Set s slot _ bz) as [s1 [err|]]; [done|].
  intros Hrest. constructor; [|by eapply IH].
  exists bz. split; [done|]. unfold record_of. simpl. by rewrite Hbz.
Qed.

Lemma V1_Persist_success_writes_witness :
  written_since emptyStore
    (after emptyStore [record_of (H := plainSSZ) 5 sidecarA;
                       record_of (H := plainSSZ) 5 sidecarB])
    (record_of (H := plainSSZ) 5 <$> [sidecarA; sidecarB]) ∧
  Forall (λ sc, ∃ bz, @MarshalSSZ plainSSZ sc = Ok bz ∧
                      w_value (record_of (H := plainSSZ) 5 sc) = bz)
         [sidecarA; sidecarB].
Proof.
  apply (@V1_Persist_success_writes _ MemDB (windowSpec 10) plainSSZ
           emptyStore _ 5 sidecarA [sidecarB]); reflexivity.
Defined.

(** X22: a call of the second version of [Persist] that stores a list
    within the retention window and returns success has made one [Set]
    call for each sidecar, in the order of the goroutines, and after all
    of them one [Set] call for the index record, whose value is the
    encoding of the commitments in input order, on any database. *)
Theorem V2_Persist_success_writes
    {St : Type} `{!IndexDB St} `{!ChainSpec} `{!SidecarSSZ}
    (sched : list nat) (s s' : Store St) (slot : Z) (first : BlobSidecar)
    (rest : list BlobSidecar) :
  WithinDAPeriod (GetSlot (Header first)) slot = true →
  V2.Persist sched s slot (Some (Some <$> first :: rest)) = Return (s', None) →
  ∃ order, order ≡ₚ first :: rest ∧
    written_since s s'
      ((record_of slot <$> order)
         ++ [mkWrite slot SlotCommitmentsKey
               (serializeCommitments
                  ((λ sc, commitmentKey sc) <$> first :: rest))]).
Proof.
  intros Hda Hret.
  pose proof (V2_Persist_success_marshal sched s s' slot first rest Hda Hret)
    as Hok.
  exists (scheduled sched (indexed (first :: rest))).*2. split.
  { by rewrite scheduled_Permutation, indexed_snd. }
  revert Hret. unfold V2.Persist. rewrite fmap_cons.
  cbv iota. rewrite Hda. cbn [negb].
  change (Some first :: (Some <$> rest)) with (Some <$> first :: rest).
  rewrite launch_all.
  change (imap _ (first :: rest)) with (indexed (first :: rest)).
  match goal with
  | |- context [foldl _ ?q ?ts] =>
      pose proof (persist_all_issued slot ts q) as Hissued;
      pose proof (persist_all_quiet slot ts q) as Hquiet
  end.
  destruct (p_errChan (foldl _ _ _)) as [|err errs]; [|done].
  destruct (Hquiet eq_refl) as [_ ->]. cbn [p_commitments].
  rewrite fill_scheduled by (by rewrite length_replicate, !length_fmap).
  match goal with
  | |- context [store_Set ?st slot ?k ?v] =>
      pose proof (store_Set_written st slot k v) as Hset;
      destruct (store_Set st slot k v) as [s2 [err|]]
  end; [done|]. intros [= ->].
  eapply written_since_trans; [|exact Hset]. apply Hissued.
  apply Forall_forall. intros [i sc] Hin. simpl.
  rewrite Forall_forall in Hok. apply Hok.
  apply (scheduled_sidecars sched). by apply (list_elem_of_fmap_2 snd _ (i, sc)).
Qed.

Lemma V2_Persist_success_writes_witness :
  ∃ order, order ≡ₚ [sidecarA; sidecarB] ∧
    written_since emptyStore
      (after emptyStore
         [record_of (H := plainSSZ) 5 sidecarB;
          record_of (H := plainSSZ) 5 sidecarA;
          mkWrite 5 SlotCommitmentsKey
            (serializeCommitments [commitmentKey sidecarA;
                                   commitmentKey sidecarB])])
      ((record_of (H := plainSSZ) 5 <$> order)
         ++ [mkWrite 5 SlotCommitmentsKey
               (serializeCommitments
                  ((λ sc, commitmentKey sc) <$> [sidecarA; sidecarB]))]).
Proof.
  apply (@V2_Persist_success_writes _ MemDB (windowSpec 10) plainSSZ [1%nat]
           emptyStore _ 5 sidecarA [sidecarB]); reflexivity.
Defined.

(** ** The start of [Persist] *)

(** X23: both versions of [Persist] read the header of the first entry
    before they look for nil entries: on a list whose first entry is nil
    they panic, whatever follows it, whatever the slot and the retention
    window, and do not return the nil-sidecar error. *)
Theorem Persist_panics_on_nil_first_entry
    {St : Type} `{!IndexDB St} `{!ChainSpec} `{!SidecarSSZ}
    (sched : list nat) (s : Store St) (slot : Z)
    (rest : list (option BlobSidecar)) :
  (∃ msg, V1.Persist s slot (Some (None :: rest)) = Panic msg) ∧
  (∃ msg, V2.Persist sched s slot (Some (None :: rest)) = Panic msg) ∧
  returned (V1.Persist s slot (Some (None :: rest)))
    ≠ Return (Some ErrAttemptedToStoreNilSidecar) ∧
  returned (V2.Persist sched s slot (Some (None :: rest)))
    ≠ Return (Some ErrAttemptedToStoreNilSidecar).
Proof.
  split; [by eexists|]. split; [by eexists|]. split; discriminate.
Qed.

(** ** The errors of the readers *)

Section ReaderErrors.
Context {St : Type} `{!IndexDB St} `{!SidecarSSZ}.

Lemma fetch_each_errors (s : Store St) (slot : Z) (P : error → Prop)
    (tasks : list (nat * bytes)) (f : fetching) :
  (∀ t err, t ∈ tasks →
     db_Get (db s) slot t.2 = Err err ∨
     (∃ bz, db_Get (db s) slot t.2 = Ok bz ∧ UnmarshalSSZ (data bz) = Err err) →
     P err) →
  Forall P (f_errChan f) →
  Forall P (f_errChan (foldl (fetch_one s slot) f tasks)).
Proof.
  revert f. induction tasks as [|[i c] tasks IH]; intros f HP Hf; [done|].
  cbn [foldl]. apply IH.
  - intros t err Ht. apply HP. by right.
  - unfold fetch_one.
    destruct (db_Get (db s) slot c) as [bz|err] eqn:Hget; simpl.
    + destruct (UnmarshalSSZ (data bz)) as [sc|err] eqn:Hdec; simpl; [done|].
      apply Forall_app. split; [done|]. repeat constructor.
      apply (HP (i, c)); [by left|]. right. by exists bz.
    + apply Forall_app. split; [done|]. repeat constructor.
      apply (HP (i, c)); [by left|]. by left.
Qed.
End ReaderErrors.

(** X24: an error that [GetBlobsFromStore] returns after the index has
    been decoded is the error of one of the readers, unchanged: the error
    of the read of a commitment of the index, or the error of the
    decoding of the record read.  (Second version; the first differs only
    in the decoder of the index.) *)
Theorem GetBlobsFromStore_error_origin
    {St : Type} `{!IndexDB St} `{!SidecarSSZ}
    (sched : list nat) (s : Store St) (slot : Z) (err : error) :
  V2.GetBlobsFromStore sched s slot = Return (Err err) →
  ∃ record commitments c,
    db_Get (db s) slot SlotCommitmentsKey = Ok record ∧
    deserializeCommitments record = Return commitments ∧
    c ∈ commitments ∧
    (db_Get (db s) slot c = Err err ∨
     ∃ bz, db_Get (db s) slot c = Ok bz ∧ UnmarshalSSZ (data bz) = Err err).
Proof.
  unfold V2.GetBlobsFromStore.
  destruct (db_Get (db s) slot SlotCommitmentsKey) as [record|]; [|done].
  destruct (deserializeCommitments record) as [cs|] eqn:Hdec;
    cbn [mbind outcome_bind]; [|done].
  intros [= Hfetch]. exists record, cs.
  unfold fetch_all in Hfetch.
  match type of Hfetch with
  | context [foldl _ ?f ?ts] =>
      pose proof (fetch_each_errors s slot
        (λ e, ∃ c, c ∈ cs ∧
           (db_Get (db s) slot c = Err e ∨
            ∃ bz, db_Get (db s) slot c = Ok bz ∧ UnmarshalSSZ (data bz) = Err e))
        ts f) as Herrs
  end.
  destruct (f_errChan (foldl _ _ _)) as [|e errs]; [done|].
  injection Hfetch as ->.
  assert (∃ c, c ∈ cs ∧
            (db_Get (db s) slot c = Err err ∨
             ∃ bz, db_Get (db s) slot c = Ok bz ∧
                   UnmarshalSSZ (data bz) = Err err)) as (c & Hc & Horigin).
  { apply Forall_cons in Herrs as [? _]; [done| |constructor].
    intros [i c] e Hin Horigin. exists c. split; [|done].
    rewrite scheduled_Permutation in Hin. apply indexed_lookup in Hin.
    apply list_elem_of_lookup. by exists i. }
  by exists c.
Qed.

Lemma GetBlobsFromStore_error_origin_witness :
  let s := after emptyStore
             [mkWrite 5 SlotCommitmentsKey
                (serializeCommitments [commitmentKey sidecarA])] in
  ∃ record commitments c,
    @db_Get _ MemDB (db s) 5 SlotCommitmentsKey = Ok record ∧
    deserializeCommitments record = Return commitments ∧
    c ∈ commitments ∧
    (@db_Get _ MemDB (db s) 5 c = Err ErrNotFound ∨
     ∃ bz, @db_Get _ MemDB (db s) 5 c = Ok bz ∧
           @UnmarshalSSZ plainSSZ (data bz) = Err ErrNotFound).
Proof.
  intros s.
  apply (@GetBlobsFromStore_error_origin _ MemDB plainSSZ [] s 5 ErrNotFound).
  reflexivity.
Defined.
